(** * pydantic-resolve: the resolution engine of [resolver.py]

    A shallow embedding of [Resolver.exec_method], [Resolver.resolve_obj]
    and [Resolver.resolve], with the properties of the engine proved on it.

    Modelling choices.
    - Python values are finite trees.  An object carries its identity
      ([oid]); in-place mutation is a functional update that keeps [oid].
    - [asyncio.gather] starts every task it is given.  Here the tasks run
      one after the other in creation order, each to its end, and a task
      that raises does not stop the ones created after it; the caller
      receives the exception of the first task that raised.  The event
      loop interleaves the tasks of nested calls differently, and how far
      the other tasks get once one has raised is up to the loop: the
      order of the events of different tasks and, when several tasks
      raise, which exception is received, are those of this schedule.
    - A coroutine or future yields a value when awaited; one that never
      completes, and exceptions raised by resolvers, are left out.
    - A [Depends] carries a definition that has [__module__] and
      [__name__], and every other parameter of a resolver has a default:
      the [AttributeError] of [exec_method] on [Depends(None)] and the
      [TypeError] of a call that lacks an argument are not modelled.
    - Every step appends to a trace of events (invocations, attribute
      writes, loader constructions), so that order can be stated.
    - The engine's state is returned also when an exception is raised. *)

From Stdlib Require Import ZArith Lia.
From stdpp Require Import base option list strings gmap.

Set Warnings "-register-all".
Open Scope string_scope.
Open Scope list_scope.

(** ** [str.replace(old, '')] *)

(** [skip] counts the characters of a match that are still to be dropped. *)
Fixpoint remove_all_from (old s : string) (skip : nat) : string :=
  match s with
  | EmptyString => EmptyString
  | String c s' =>
      match skip with
      | S k => remove_all_from old s' k
      | O =>
          if String.prefix old s
          then remove_all_from old s' (Nat.pred (String.length old))
          else String c (remove_all_from old s' 0)
      end
  end.

(** [s.replace(old, '')]: every non-overlapping occurrence of [old], found
    from the left, is removed.  With an empty [old] Python inserts the
    (empty) replacement between the characters, which gives [s] back. *)
Definition str_remove (old s : string) : string :=
  match old with
  | EmptyString => s
  | _ => remove_all_from old s 0
  end.

(** ** Values *)

Inductive atom :=
| ANone
| AInt (z : Z)
| AStr (s : string)
| AOpaque (tag : nat).

Inductive seqkind := KList | KTuple.

(** What a call may return: a concrete value, or a coroutine or future that
    yields, once awaited, what is below it. *)
Inductive awaitable (A : Type) :=
| Concrete (a : A)
| Coroutine (w : awaitable A)
| Future (w : awaitable A).
Arguments Concrete {A} a.
Arguments Coroutine {A} w.
Arguments Future {A} w.

(** [Depends(dependency=Base)]: the batching-unit definition behind a
    parameter default, a class or function with [__module__] and
    [__name__].  [d_class] is the identity of the class object (the key of
    [loader_filters]); [d_fields] is what
    [get_class_field_annotations(Base)] enumerates. *)
Record depends := Depends {
  d_module : string;
  d_name : string;
  d_isclass : bool;
  d_class : nat;
  d_fields : list string
}.

(** A resolver method.  [m_params] is [inspect.signature(method).parameters]
    (the default of each parameter, when it is a [Depends]; a parameter
    with [None] here has a default of another kind, so that the call on
    the loaders alone binds every parameter);
    [m_annotations] is the key list of [method.__annotations__];
    [m_ret] is what calling the method returns. *)
Record method_ (V : Type) := Method {
  m_params : list (string * option depends);
  m_annotations : list string;
  m_ret : awaitable V
}.
Arguments Method {V} _ _ _.
Arguments m_params {V} _.
Arguments m_annotations {V} _.
Arguments m_ret {V} _.

(** A post hook.  A plain function runs its body when called: the body
    assigns [h_writes] on [self] and returns [h_ret].  An [async def]
    returns a coroutine when called and its body does not run. *)
Record hook_ (V : Type) := Hook {
  h_async : bool;
  h_writes : list (string * V);
  h_ret : V
}.
Arguments Hook {V} _ _ _.
Arguments h_async {V} _.
Arguments h_writes {V} _.
Arguments h_ret {V} _.

(** An object: [acceptable] is [core.is_acceptable_type], [resolvers] is
    [core.iter_over_object_resolvers] paired with the bound methods
    [__getattribute__] returns, [posts] the same for
    [core.iter_over_object_post_methods]. *)
Record obj_ (V : Type) := Obj {
  oid : nat;
  acceptable : bool;
  attrs : list (string * V);
  resolvers : list (string * method_ V);
  posts : list (string * hook_ V)
}.
Arguments Obj {V} _ _ _ _ _.
Arguments oid {V} _.
Arguments acceptable {V} _.
Arguments attrs {V} _.
Arguments resolvers {V} _.
Arguments posts {V} _.

(** [VSeq k items cls]: a list or tuple instance; [cls] is present when the
    instance is, besides, an object with attributes of its own. *)
Inductive value :=
| VAtom (a : atom)
| VSeq (k : seqkind) (items : list value) (cls : option (obj_ value))
| VObj (o : obj_ value).

Abbreviation method := (method_ value).
Abbreviation hook := (hook_ value).
Abbreviation obj := (obj_ value).

(** ** The resolver and the world around it *)

Inductive exn :=
| ResolverTargetAttrNotFound (msg : string)
| LoaderFieldNotProvidedError (msg : string)
| MissingAnnotationError (msg : string).

(** A loader instance: [l_uid] is its identity, [l_fields] the attributes
    assigned on it from [loader_filters]. *)
Record loader := Loader {
  l_uid : nat;
  l_key : string;
  l_isclass : bool;
  l_fields : list (string * value)
}.

Inductive event :=
| EvNewLoader (key : string) (uid : nat)
| EvCall (name : string) (kwargs : list (string * nat))
| EvSetattr (owner : nat) (name : string) (v : value)
| EvPostCall (owner : nat) (key : string)
| EvPostBody (owner : nat) (key : string).

(** [Resolver.__init__]: [ctx] is the dict held by the context variable
    [pydantic_resolve_internal_context], [loader_filters_ctx] the one held
    by [pydantic_resolve_internal_filter]. *)
Record Resolver := MkResolver {
  ctx : gmap string loader;
  loader_filters_ctx : gmap nat (gmap string value);
  ensure_type : bool
}.

Definition Resolver_init (loader_filters : option (gmap nat (gmap string value)))
    (ensure_type : bool) : Resolver :=
  MkResolver ∅ (default ∅ loader_filters) ensure_type.

(** What is outside the resolver: the supply of loader identities and the
    trace, oldest event first. *)
Record world := World {
  fresh : nat;
  trace : list event
}.

Definition emit (e : event) (w : world) : world :=
  World (fresh w) (trace w ++ [e]).

(** Computations of the engine: they read and update the resolver and the
    world, and end with an exception or a result. *)
Definition M (A : Type) : Type := Resolver → world → Resolver * world * (exn + A).

Definition ret {A} (a : A) : M A := fun self w => (self, w, inr a).
Definition raise {A} (e : exn) : M A := fun self w => (self, w, inl e).
Definition bind {A B} (m : M A) (f : A → M B) : M B :=
  fun self w =>
    match m self w with
    | (self', w', inr a) => f a self' w'
    | (self', w', inl e) => (self', w', inl e)
    end.
Definition log (e : event) : M unit := fun self w => (self, emit e w, inr tt).

Notation "'let*' x ':=' m 'in' k" := (bind m (fun x => k))
  (at level 10, x name, m at level 100, k at level 200).
Notation "'run' m 'in' k" := (bind m (fun _ => k))
  (at level 10, m at level 100, k at level 200).

(** ** [Resolver.exec_method] *)

Definition cache_key (d : depends) : string :=
  d_module d ++ "." ++ d_name d.

(** The loop over [get_class_field_annotations(Base)]: each field is read
    from [filter_config] and assigned; a missing one raises. *)
Fixpoint set_loader_fields (key : string) (filter_config : gmap string value)
    (fields : list string) (acc : list (string * value))
    : exn + list (string * value) :=
  match fields with
  | [] => inr acc
  | field :: rest =>
      match filter_config !! field with
      | Some v => set_loader_fields key filter_config rest (acc ++ [(field, v)])
      | None =>
          inl (LoaderFieldNotProvidedError
                 (key ++ "." ++ field ++ " not found in Resolver()"))
      end
  end.

(** [Base()] or [DataLoader(batch_load_fn=Base)]: a new instance. *)
Definition new_loader (d : depends) : M loader :=
  fun self w =>
    let uid := fresh w in
    (self,
     World (S uid) (trace w ++ [EvNewLoader (cache_key d) uid]),
     inr (Loader uid (cache_key d) (d_isclass d) [])).

(** The body of the loop for one [Depends] parameter.  [if hit:] holds for
    every cached loader, an object without [__bool__] or [__len__];
    [self.ctx.set(cache_provider)] puts back the dict that the assignment
    before it has already updated. *)
Definition provide_loader (d : depends) : M loader :=
  fun self w =>
    match ctx self !! cache_key d with
    | Some hit => (self, w, inr hit)
    | None =>
        (let* l := new_loader d in
         let* l' := (if d_isclass d
               then fun self' w' =>
                 let filter_config :=
                   default ∅ (loader_filters_ctx self' !! d_class d) in
                 match set_loader_fields (cache_key d) filter_config (d_fields d) [] with
                 | inl e => (self', w', inl e)
                 | inr fs => (self', w', inr (Loader (l_uid l) (l_key l) true fs))
                 end
               else ret l) in
         (fun self' w' =>
            (MkResolver (<[cache_key d := l']> (ctx self'))
                        (loader_filters_ctx self') (ensure_type self'),
             w', inr l'))) self w
    end.

Fixpoint provide_params (ps : list (string * option depends))
    (params : list (string * loader)) : M (list (string * loader)) :=
  match ps with
  | [] => ret params
  | (k, None) :: rest => provide_params rest params
  | (k, Some d) :: rest =>
      let* l := provide_loader d in
      provide_params rest (params ++ [(k, l)])
  end.

(** [exec_method(method)]: the loop over the parameters, then
    the call of [method] on the keyword arguments [params].  The caller's continuation [k] receives the
    returned value. *)
Definition exec_method {V R} (name : string) (m : method_ V)
    (k : awaitable V → M R) : M R :=
  let* params := provide_params (m_params m) [] in
  run log (EvCall name (map (fun p => (p.1, l_uid p.2)) params)) in
  k (m_ret m).

(** ** Attribute access *)

Fixpoint assoc {A} (k : string) (l : list (string * A)) : option A :=
  match l with
  | [] => None
  | (k', a) :: rest => if String.eqb k k' then Some a else assoc k rest
  end.

Definition has_key {A} (k : string) (l : list (string * A)) : bool :=
  match assoc k l with Some _ => true | None => false end.

(** [hasattr(target, name)]: a data attribute or a method of the object. *)
Definition hasattr (target : obj) (name : string) : bool :=
  has_key name (attrs target) || has_key name (resolvers target)
  || has_key name (posts target).

Fixpoint assign {A} (k : string) (a : A) (l : list (string * A)) : list (string * A) :=
  match l with
  | [] => [(k, a)]
  | (k', a') :: rest =>
      if String.eqb k k' then (k, a) :: rest else (k', a') :: assign k a rest
  end.

(** [target.__setattr__(name, val)] *)
Definition setattr (target : obj) (name : string) (val : value) : obj :=
  Obj (oid target) (acceptable target) (assign name val (attrs target))
      (resolvers target) (posts target).

(** ** [Resolver.resolve_obj] and [Resolver.resolve] *)

(** [while iscoroutine(val) or asyncio.isfuture(val): val = await val],
    followed by [k] on the concrete value. *)
Fixpoint await_all {A R} (k : A → R) (val : awaitable A) : R :=
  match val with
  | Concrete v => k v
  | Coroutine w => await_all k w
  | Future w => await_all k w
  end.

(** The value at the end of a chain of awaitables. *)
Fixpoint settled {A} (val : awaitable A) : A :=
  match val with
  | Concrete v => v
  | Coroutine w => settled w
  | Future w => settled w
  end.

(** What awaiting [asyncio.gather] gives for a task and the tasks after
    it: their results, or the exception of the first that raised. *)
Definition both {A B C} (g : A → B → C) (r : exn + A) (rs : exn + B)
    : exn + C :=
  match r, rs with
  | inl e, _ => inl e
  | inr _, inl e => inl e
  | inr a, inr b => inr (g a b)
  end.

(** [asyncio.gather] over the tasks [f x] for [x] in [l]: every task is
    started, also after one of them has raised. *)
Fixpoint gather {A B} (f : A → M B) (l : list A) : M (list B) :=
  match l with
  | [] => ret []
  | x :: rest =>
      fun self w =>
        let '(self1, w1, r) := f x self w in
        let '(self2, w2, rs) := gather f rest self1 w1 in
        (self2, w2, both cons r rs)
  end.

(** The same over the fields of one target, which every task mutates.  A
    task that raises has assigned nothing. *)
Fixpoint gather_fields {A} (f : obj → A → M obj) (target : obj) (l : list A)
    : M obj :=
  match l with
  | [] => ret target
  | x :: rest =>
      fun self w =>
        let '(self1, w1, r) := f target x self w in
        match r with
        | inr target' => gather_fields f target' rest self1 w1
        | inl e =>
            let '(self2, w2, _) := gather_fields f target rest self1 w1 in
            (self2, w2, inl e)
        end
  end.

(** A [for] loop whose body [f] updates the target: an exception ends it. *)
Fixpoint for_each {A} (f : obj → A → M obj) (target : obj) (l : list A)
    : M obj :=
  match l with
  | [] => ret target
  | x :: rest =>
      let* target' := f target x in
      for_each f target' rest
  end.

Section Engine.

(** [constant.PREFIX] and [constant.POST_PREFIX]. *)
Variables PREFIX POST_PREFIX : string.

(** The recursive call [self.resolve]. *)
Variable resolve_rec : value → M value.

Definition target_attr_name (field : string) : string :=
  str_remove PREFIX field.

Definition post_attr_name (post_key : string) : string :=
  str_remove POST_PREFIX post_key.

(** [resolve_obj(target, field)]; [item] is
    [target.__getattribute__(field)]. *)
Definition resolve_obj (target : obj) (fi : string * method) : M obj :=
  let '(field, item) := fi in
  exec_method field item (fun val =>
  if negb (hasattr target (target_attr_name field))
  then raise (ResolverTargetAttrNotFound
                ("attribute " ++ target_attr_name field ++ " not found"))
  else
    fun self w =>
      if ensure_type self && negb (bool_decide (m_annotations item ≠ []))
      then (self, w,
            inl (MissingAnnotationError
                   (field ++ ": return annotation is required")))
      else
        (let* val' := await_all resolve_rec val in
         run log (EvSetattr (oid target) (target_attr_name field) val') in
         ret (setattr target (target_attr_name field) val')) self w).

(** The body of a plain hook: the assignments it makes on [self]. *)
Definition run_body (target : obj) (writes : list (string * value)) : obj :=
  foldl (fun t kv => setattr t kv.1 kv.2) target writes.

(** One turn of the loop over [iter_over_object_post_methods]. *)
Definition run_post (target : obj) (ph : string * hook) : M obj :=
  let '(post_key, post_method) := ph in
  if negb (hasattr target (post_attr_name post_key))
  then raise (ResolverTargetAttrNotFound
                ("fail to run " ++ post_key ++ "(), attribute "
                 ++ post_attr_name post_key ++ " not found"))
  else
    run log (EvPostCall (oid target) post_key) in
    if h_async post_method
    then ret target
    else
      run log (EvPostBody (oid target) post_key) in
      ret (run_body target (h_writes post_method)).

(** The branch under [core.is_acceptable_type(target)]. *)
Definition resolve_object (target : obj) : M obj :=
  let* target' := gather_fields resolve_obj target (resolvers target) in
  for_each run_post target' (posts target').

End Engine.

(** [core.is_acceptable_type(target)] *)
Definition is_acceptable_type (target : value) : bool :=
  match target with
  | VAtom _ => false
  | VSeq _ _ cls => from_option acceptable false cls
  | VObj o => acceptable o
  end.

(** [isinstance(target, (list, tuple))] *)
Definition is_collection (target : value) : bool :=
  match target with
  | VSeq _ _ _ => true
  | _ => false
  end.

(** [Resolver.resolve]. *)
Fixpoint resolve (PREFIX POST_PREFIX : string) (target : value) {struct target}
    : M value :=
  match target with
  | VAtom _ => ret target
  | VSeq k items cls =>
      let* items' := gather (resolve PREFIX POST_PREFIX) items in
      match cls with
      | Some o =>
          if acceptable o
          then
            let* o' := resolve_object PREFIX POST_PREFIX
                         (resolve PREFIX POST_PREFIX) o in
            ret (VSeq k items' (Some o'))
          else ret (VSeq k items' cls)
      | None => ret (VSeq k items' cls)
      end
  | VObj o =>
      if acceptable o
      then
        let* o' := resolve_object PREFIX POST_PREFIX
                     (resolve PREFIX POST_PREFIX) o in
        ret (VObj o')
      else ret target
  end.

(** ** What the properties are stated with *)

(** [old in s] *)
Fixpoint occurs (old s : string) : bool :=
  match s with
  | EmptyString => String.prefix old s
  | String _ s' => String.prefix old s || occurs old s'
  end.

(** The events of the hook loop over [hooks], when no hook is refused. *)
Definition post_events (owner : nat) (hooks : list (string * hook)) : list event :=
  flat_map (fun kh =>
              EvPostCall owner kh.1
              :: (if h_async kh.2 then [] else [EvPostBody owner kh.1]))
           hooks.

(** The target after the hook loop over [hooks]. *)
Definition after_hooks (target : obj) (hooks : list (string * hook)) : obj :=
  foldl (fun t kh => if h_async kh.2 then t else run_body t (h_writes kh.2))
        target hooks.

(** How many loaders a stretch of trace constructs under [key]. *)
Fixpoint constructed (key : string) (tr : list event) : nat :=
  match tr with
  | [] => 0
  | EvNewLoader key' _ :: rest =>
      (if String.eqb key key' then 1 else 0) + constructed key rest
  | _ :: rest => constructed key rest
  end.

(** Two values are the same objects: same shape, identities, methods and
    hooks; only attribute values may differ. *)
Definition same_obj (o o' : obj) : Prop :=
  oid o = oid o' ∧ acceptable o = acceptable o'
  ∧ resolvers o = resolvers o' ∧ posts o = posts o'.

Fixpoint same_object (v v' : value) {struct v} : Prop :=
  match v, v' with
  | VAtom a, VAtom a' => a = a'
  | VSeq k items cls, VSeq k' items' cls' =>
      k = k'
      ∧ (fix all2 (l l' : list value) {struct l} : Prop :=
           match l, l' with
           | [], [] => True
           | x :: r, x' :: r' => same_object x x' ∧ all2 r r'
           | _, _ => False
           end) items items'
      ∧ match cls, cls' with
        | Some o, Some o' => same_obj o o'
        | None, None => True
        | _, _ => False
        end
  | VObj o, VObj o' => same_obj o o'
  | _, _ => False
  end.

(** [follows ok self w self' w' tr]: the run from [(self, w)] to
    [(self', w')] appended [tr]; it built no loader for a key already
    cached, and the cache only grew.  When the run returned ([ok]), it
    built at most one loader for a key, and the cache grew by the loaders
    built in [tr]. *)
Record follows (ok : bool) (self : Resolver) (w : world)
    (self' : Resolver) (w' : world) (tr : list event) : Prop := {
  fol_trace : trace w' = trace w ++ tr;
  fol_fresh : (fresh w ≤ fresh w')%nat;
  fol_filters : loader_filters_ctx self' = loader_filters_ctx self;
  fol_ensure : ensure_type self' = ensure_type self;
  fol_once : ok = true → ∀ key, (constructed key tr ≤ 1)%nat;
  fol_hit : ∀ key, is_Some (ctx self !! key) → constructed key tr = 0;
  fol_keep : ∀ key l,
    ctx self !! key = Some l → ctx self' !! key = Some l;
  fol_stored : ok = true → ∀ key,
    constructed key tr = 1 → is_Some (ctx self' !! key);
  fol_origin : ok = true → ∀ key l,
    ctx self' !! key = Some l →
    ctx self !! key = Some l
    ∨ ((fresh w ≤ l_uid l < fresh w')%nat ∧ EvNewLoader key (l_uid l) ∈ tr)
}.

Definition returned {A} (r : exn + A) : bool :=
  match r with inr _ => true | inl _ => false end.

Definition sound {A} (m : M A) : Prop :=
  ∀ self w, ∃ tr,
    follows (returned (m self w).2) self w (m self w).1.1 (m self w).1.2 tr.

(** An event that is not the construction of a loader. *)
Definition quiet (e : event) : Prop :=
  match e with EvNewLoader _ _ => False | _ => True end.

Definition store (key : string) (l : loader) (self : Resolver) : Resolver :=
  MkResolver (<[key := l]> (ctx self)) (loader_filters_ctx self) (ensure_type self).

Definition built (d : depends) (w : world) : world :=
  World (S (fresh w)) (trace w ++ [EvNewLoader (cache_key d) (fresh w)]).

Definition filter_config_of (d : depends) (self : Resolver) : gmap string value :=
  default ∅ (loader_filters_ctx self !! d_class d).

Definition hook_refused (post_key attr : string) : exn :=
  ResolverTargetAttrNotFound
    ("fail to run " ++ post_key ++ "(), attribute " ++ attr ++ " not found").

Definition attr_missing (attr : string) : exn :=
  ResolverTargetAttrNotFound ("attribute " ++ attr ++ " not found").

Definition annotation_missing (field : string) : exn :=
  MissingAnnotationError (field ++ ": return annotation is required").

Definition called (field : string) (params : list (string * loader)) : event :=
  EvCall field (map (fun p => (p.1, l_uid p.2)) params).

Definition same_cls (cls cls' : option obj) : Prop :=
  match cls, cls' with
  | Some o, Some o' => same_obj o o'
  | None, None => True
  | _, _ => False
  end.

Definition keeps_identity (m : M value) (target : value) : Prop :=
  ∀ self w,
    match (m self w).2 with
    | inr target' => same_object target target'
    | inl _ => True
    end.

(** An object whose resolver [resolve_books] declares a loader. *)
Definition student : value :=
  VObj (Obj 1 true [("books", VAtom ANone)]
          [("resolve_books",
            Method [("loader", Some (Depends "app.loaders" "BookLoader" false 1 []))]
                   [] (Concrete (VAtom (AInt 5))))]
          []).




(** The definitions behind the parameters of a signature. *)
Definition depends_of (ps : list (string * option depends)) : list depends :=
  omap snd ps.

(** A definition whose provision can raise: a class, not cached, with a
    declared field that the configuration lacks. *)
Definition unconfigured (self : Resolver) (d : depends) : Prop :=
  d_isclass d = true
  ∧ Exists (fun f => filter_config_of d self !! f = None) (d_fields d).

(** Plain data: no acceptable object anywhere in the collections. *)
Fixpoint plain (v : value) : bool :=
  match v with
  | VAtom _ => true
  | VSeq _ items cls =>
      forallb plain items && negb (from_option acceptable false cls)
  | VObj o => negb (acceptable o)
  end.

(** The cache is well formed: a loader sits under its own key, its
    identity was handed out before, and no two keys hold the same
    instance. *)
Definition cache_ok (self : Resolver) (w : world) : Prop :=
  ∀ key l, ctx self !! key = Some l →
    l_key l = key
    ∧ (l_uid l < fresh w)%nat
    ∧ ∀ key' l', ctx self !! key' = Some l' → l_uid l' = l_uid l → key' = key.

(** [m] keeps [I], whether it returns or raises. *)
Definition preserves {A} (I : Resolver → world → Prop) (m : M A) : Prop :=
  ∀ self w, I self w → I (m self w).1.1 (m self w).1.2.

(** Calls of resolvers and assignments of fields in a stretch of trace. *)
Definition is_call (e : event) : bool :=
  match e with EvCall _ _ => true | _ => false end.
Definition is_setattr (e : event) : bool :=
  match e with EvSetattr _ _ _ => true | _ => false end.
Definition calls (tr : list event) : nat := length (filter is_call tr).
Definition assignments (tr : list event) : nat := length (filter is_setattr tr).


(** Every field that the class behind [d] declares has a value in
    [filters]; nothing is asked of a function. *)
Definition configured (filters : gmap nat (gmap string value)) (d : depends)
    : Prop :=
  d_isclass d = true →
  Forall (fun f => is_Some (default ∅ (filters !! d_class d) !! f)) (d_fields d).

(** A resolver of [o] is well declared: its target attribute is on [o],
    the loader classes of its signature are configured and, in strict
    mode, it has an annotation. *)
Definition field_declared (PREFIX : string)
    (filters : gmap nat (gmap string value)) (strict : bool)
    (o : obj) (fi : string * method) : Prop :=
  hasattr o (target_attr_name PREFIX fi.1) = true
  ∧ Forall (configured filters) (depends_of (m_params fi.2))
  ∧ (strict = true → m_annotations fi.2 ≠ []).

(** A value is well declared when this holds of every resolver of every
    acceptable object that [resolve] visits in it, and the target
    attribute of every hook is on its object. *)
Fixpoint well_declared (PREFIX POST_PREFIX : string)
    (filters : gmap nat (gmap string value)) (strict : bool)
    (v : value) {struct v} : Prop :=
  let on_awaitable :=
    fix aw (a : awaitable value) : Prop :=
      match a with
      | Concrete x => well_declared PREFIX POST_PREFIX filters strict x
      | Coroutine a' => aw a'
      | Future a' => aw a'
      end in
  let on_obj (o : obj) : Prop :=
    acceptable o = true →
    (fix fs (l : list (string * method)) : Prop :=
       match l with
       | [] => True
       | fi :: rest =>
           (field_declared PREFIX filters strict o fi ∧ on_awaitable (m_ret fi.2))
           ∧ fs rest
       end) (resolvers o)
    ∧ Forall (fun kh : string * hook =>
                hasattr o (post_attr_name POST_PREFIX kh.1) = true) (posts o) in
  match v with
  | VAtom _ => True
  | VSeq _ items cls =>
      (fix it (l : list value) : Prop :=
         match l with
         | [] => True
         | x :: rest => well_declared PREFIX POST_PREFIX filters strict x ∧ it rest
         end) items
      ∧ match cls with Some o => on_obj o | None => True end
  | VObj o => on_obj o
  end.

(** What [well_declared] asks of an acceptable object. *)
Definition obj_declared (PREFIX POST_PREFIX : string)
    (filters : gmap nat (gmap string value)) (strict : bool) (o : obj) : Prop :=
  Forall (fun fi : string * method =>
            field_declared PREFIX filters strict o fi
            ∧ well_declared PREFIX POST_PREFIX filters strict (settled (m_ret fi.2)))
         (resolvers o)
  ∧ Forall (fun kh : string * hook =>
              hasattr o (post_attr_name POST_PREFIX kh.1) = true) (posts o).

(** The resolver has the configuration [filters], [strict]. *)
Definition config_is (filters : gmap nat (gmap string value)) (strict : bool)
    (self : Resolver) : Prop :=
  loader_filters_ctx self = filters ∧ ensure_type self = strict.

(** Under that configuration [m] returns, and leaves it in place. *)
Definition returns {A} (filters : gmap nat (gmap string value)) (strict : bool)
    (m : M A) : Prop :=
  ∀ self w, config_is filters strict self →
    returned (m self w).2 = true ∧ config_is filters strict (m self w).1.1.

(** Started without strict mode, [m] stays without it and does not raise
    [MissingAnnotationError]. *)
Definition lenient {A} (m : M A) : Prop :=
  ∀ self w, ensure_type self = false →
    ensure_type (m self w).1.1 = false
    ∧ ∀ msg, (m self w).2 ≠ inl (MissingAnnotationError msg).

(** * Properties *)

(** ** Names *)

Lemma prefix_append (p rest : string) : String.prefix p (p ++ rest)%string = true.
Proof.
  induction p as [|c p IH]; simpl.
  - by destruct rest.
  - destruct (Ascii.ascii_dec c c); [exact IH | congruence].
Qed.

Lemma remove_all_from_skip (old p rest : string) :
  remove_all_from old (p ++ rest)%string (String.length p)
  = remove_all_from old rest 0.
Proof.
  induction p as [|c p IH]; simpl.
  - by destruct rest.
  - exact IH.
Qed.

(** A leading occurrence of the prefix is removed. *)
Lemma str_remove_leading (old rest : string) :
  old ≠ EmptyString →
  str_remove old (old ++ rest)%string = str_remove old rest.
Proof.
  destruct old as [|c old]; [done | intros _].
  unfold str_remove.
  change (String c old ++ rest)%string with (String c (old ++ rest)%string).
  cbn [remove_all_from].
  change (String c (old ++ rest)%string) with (String c old ++ rest)%string.
  rewrite prefix_append.
  cbn [String.length Nat.pred].
  apply remove_all_from_skip.
Qed.

Lemma str_remove_absent (old s : string) :
  occurs old s = false → str_remove old s = s.
Proof.
  destruct old as [|c old]; [done |].
  unfold str_remove.
  induction s as [|a s IH]; [done |].
  cbn [occurs remove_all_from].
  intros [Hp Ho]%orb_false_iff.
  rewrite Hp. f_equal. by apply IH.
Qed.

(** When the prefix occurs once, at the head, removing it strips it. *)
Lemma str_remove_strips (old rest : string) :
  old ≠ EmptyString → occurs old rest = false →
  str_remove old (old ++ rest)%string = rest.
Proof.
  intros Hne Ho. rewrite str_remove_leading by done.
  by apply str_remove_absent.
Qed.

Example target_attr_name_books :
  target_attr_name "resolve_" "resolve_books" = "books".
Proof. reflexivity. Qed.

(** [replace] removes every occurrence, not only the leading one. *)
Example post_attr_name_inner_occurrence :
  post_attr_name "post_" "post_compost_heap" = "comheap".
Proof. reflexivity. Qed.



(** ** Induction over the values the engine visits *)

Section value_rect.
Variable P : value → Prop.

(** The values reached from an object: what its resolvers settle to. *)
Definition fields_hold (o : obj) : Prop :=
  Forall (fun fi : string * method => P (settled (m_ret fi.2))) (resolvers o).

Hypothesis Hatom : ∀ a, P (VAtom a).
Hypothesis Hseq : ∀ k items cls,
  Forall P items → from_option fields_hold True cls → P (VSeq k items cls).
Hypothesis Hobj : ∀ o, fields_hold o → P (VObj o).

Fixpoint value_visit_ind (v : value) : P v :=
  let on_awaitable :=
    fix aw (a : awaitable value) : P (settled a) :=
      match a with
      | Concrete x => value_visit_ind x
      | Coroutine a' => aw a'
      | Future a' => aw a'
      end in
  let on_fields :=
    fix fs (l : list (string * method))
      : Forall (fun fi : string * method => P (settled (m_ret fi.2))) l :=
      match l with
      | [] => Forall_nil_2 _
      | fi :: rest => Forall_cons_2 _ fi rest (on_awaitable (m_ret fi.2)) (fs rest)
      end in
  match v with
  | VAtom a => Hatom a
  | VSeq k items cls =>
      Hseq k items cls
        ((fix it (l : list value) : Forall P l :=
            match l with
            | [] => Forall_nil_2 _
            | x :: rest => Forall_cons_2 _ x rest (value_visit_ind x) (it rest)
            end) items)
        (match cls return from_option fields_hold True cls with
         | Some o => on_fields (resolvers o)
         | None => I
         end)
  | VObj o => Hobj o (on_fields (resolvers o))
  end.
End value_rect.

(** ** What a run does to the cache and the trace *)

Lemma constructed_app (key : string) (tr1 tr2 : list event) :
  constructed key (tr1 ++ tr2) = constructed key tr1 + constructed key tr2.
Proof.
  induction tr1 as [|e tr1 IH]; [done |].
  destruct e; simpl; rewrite IH; lia.
Qed.

Lemma follows_refl (ok : bool) (self : Resolver) (w : world) :
  follows ok self w self w [].
Proof.
  split.
  - by rewrite app_nil_r.
  - lia.
  - done.
  - done.
  - intros _ key. simpl. lia.
  - done.
  - done.
  - intros _ key Hc. simpl in Hc. lia.
  - intros _ key l Hl. by left.
Qed.

(** One run after another: what holds of a run that raised holds of the
    two together as soon as one of them raised. *)
Lemma follows_seq (ok1 ok2 : bool) self w self1 w1 self2 w2 tr1 tr2 :
  follows ok1 self w self1 w1 tr1 →
  follows ok2 self1 w1 self2 w2 tr2 →
  follows (ok1 && ok2) self w self2 w2 (tr1 ++ tr2).
Proof.
  intros H1 H2.
  split.
  - rewrite (fol_trace _ _ _ _ _ _ H2), (fol_trace _ _ _ _ _ _ H1).
    by rewrite app_assoc.
  - pose proof (fol_fresh _ _ _ _ _ _ H1). pose proof (fol_fresh _ _ _ _ _ _ H2). lia.
  - by rewrite (fol_filters _ _ _ _ _ _ H2), (fol_filters _ _ _ _ _ _ H1).
  - by rewrite (fol_ensure _ _ _ _ _ _ H2), (fol_ensure _ _ _ _ _ _ H1).
  - intros [-> ->]%andb_true_iff key. rewrite constructed_app.
    pose proof (fol_once _ _ _ _ _ _ H1 eq_refl key).
    pose proof (fol_once _ _ _ _ _ _ H2 eq_refl key).
    assert (constructed key tr1 = 1 → constructed key tr2 = 0); [|lia].
    intros Hc. apply (fol_hit _ _ _ _ _ _ H2).
    by apply (fol_stored _ _ _ _ _ _ H1).
  - intros key [l Hl]. rewrite constructed_app.
    rewrite (fol_hit _ _ _ _ _ _ H1 key) by eauto.
    rewrite (fol_hit _ _ _ _ _ _ H2 key); [done |].
    exists l. by apply (fol_keep _ _ _ _ _ _ H1).
  - intros key l Hl.
    apply (fol_keep _ _ _ _ _ _ H2). by apply (fol_keep _ _ _ _ _ _ H1).
  - intros [-> ->]%andb_true_iff key. rewrite constructed_app. intros Hc.
    destruct (decide (constructed key tr1 = 1)) as [Hc1|Hc1].
    + destruct (fol_stored _ _ _ _ _ _ H1 eq_refl key Hc1) as [l Hl].
      exists l. by apply (fol_keep _ _ _ _ _ _ H2).
    + apply (fol_stored _ _ _ _ _ _ H2 eq_refl).
      pose proof (fol_once _ _ _ _ _ _ H1 eq_refl key). lia.
  - intros [-> ->]%andb_true_iff key l Hl.
    pose proof (fol_fresh _ _ _ _ _ _ H1). pose proof (fol_fresh _ _ _ _ _ _ H2).
    destruct (fol_origin _ _ _ _ _ _ H2 eq_refl key l Hl) as [Hold|[Hr Hin]].
    + destruct (fol_origin _ _ _ _ _ _ H1 eq_refl key l Hold) as [Hold'|[Hr Hin]].
      * by left.
      * right. split; [lia |]. apply elem_of_app. by left.
    + right. split; [lia |]. apply elem_of_app. by right.
Qed.

Lemma follows_trans (ok : bool) self w self1 w1 self2 w2 tr1 tr2 :
  follows true self w self1 w1 tr1 →
  follows ok self1 w1 self2 w2 tr2 →
  follows ok self w self2 w2 (tr1 ++ tr2).
Proof. apply (follows_seq true ok). Qed.

Lemma sound_ret {A} (a : A) : sound (ret a).
Proof. intros self w. exists []. apply follows_refl. Qed.

Lemma sound_raise {A} (e : exn) : sound (@raise A e).
Proof. intros self w. exists []. apply follows_refl. Qed.

Lemma sound_bind {A B} (m : M A) (f : A → M B) :
  sound m → (∀ a, sound (f a)) → sound (bind m f).
Proof.
  intros Hm Hf self w. unfold bind.
  destruct (Hm self w) as [tr1 H1].
  destruct (m self w) as [[self1 w1] [e|a]]; simpl in *.
  - by exists tr1.
  - destruct (Hf a self1 w1) as [tr2 H2].
    exists (tr1 ++ tr2). by eapply follows_trans.
Qed.

Lemma sound_log (e : event) : quiet e → sound (log e).
Proof.
  intros He self w. exists [e]. simpl.
  assert (Hc : ∀ key, constructed key [e] = 0) by (intros key; by destruct e).
  split.
  - done.
  - simpl. lia.
  - done.
  - done.
  - intros _ key. rewrite Hc. lia.
  - intros key _. apply Hc.
  - done.
  - intros _ key Hk. rewrite Hc in Hk. lia.
  - intros _ key l Hl. by left.
Qed.

(** ** The provider *)

Lemma provide_loader_hit (d : depends) (self : Resolver) (w : world) (hit : loader) :
  ctx self !! cache_key d = Some hit →
  provide_loader d self w = (self, w, inr hit).
Proof. intros H. unfold provide_loader. by rewrite H. Qed.

Lemma provide_loader_miss (d : depends) (self : Resolver) (w : world) :
  ctx self !! cache_key d = None →
  provide_loader d self w =
    if d_isclass d
    then match set_loader_fields (cache_key d) (filter_config_of d self)
                 (d_fields d) [] with
         | inl e => (self, built d w, inl e)
         | inr fs =>
             (store (cache_key d) (Loader (fresh w) (cache_key d) true fs) self,
              built d w, inr (Loader (fresh w) (cache_key d) true fs))
         end
    else (store (cache_key d) (Loader (fresh w) (cache_key d) false []) self,
          built d w, inr (Loader (fresh w) (cache_key d) false [])).
Proof.
  intros H. unfold provide_loader. rewrite H.
  unfold bind, new_loader, ret, filter_config_of, store, built. simpl.
  destruct (d_isclass d) eqn:Hc; simpl.
  - by destruct (set_loader_fields _ _ _ _).
  - done.
Qed.

Lemma constructed_single (key key' : string) (uid : nat) :
  constructed key [EvNewLoader key' uid] = if String.eqb key key' then 1 else 0.
Proof. simpl. destruct (String.eqb key key'); lia. Qed.

Lemma follows_built_raise (d : depends) (self : Resolver) (w : world) :
  ctx self !! cache_key d = None →
  follows false self w self (built d w) [EvNewLoader (cache_key d) (fresh w)].
Proof.
  intros Hmiss. split; try done.
  - simpl. lia.
  - intros key [l Hl]. rewrite constructed_single.
    destruct (String.eqb key (cache_key d)) eqn:E; [|done].
    apply String.eqb_eq in E. congruence.
Qed.

Lemma follows_built_store (d : depends) (self : Resolver) (w : world)
    (isclass : bool) (fs : list (string * value)) :
  ctx self !! cache_key d = None →
  follows true self w
    (store (cache_key d) (Loader (fresh w) (cache_key d) isclass fs) self)
    (built d w) [EvNewLoader (cache_key d) (fresh w)].
Proof.
  intros Hmiss. split.
  - done.
  - simpl. lia.
  - done.
  - done.
  - intros _ key. rewrite constructed_single. destruct (String.eqb _ _); lia.
  - intros key [l Hl]. rewrite constructed_single.
    destruct (String.eqb key (cache_key d)) eqn:E; [|done].
    apply String.eqb_eq in E. congruence.
  - intros key l Hl. simpl. rewrite lookup_insert_ne; [done | congruence].
  - intros _ key. rewrite constructed_single.
    destruct (String.eqb key (cache_key d)) eqn:E; [|lia].
    apply String.eqb_eq in E. subst key. intros _. simpl.
    rewrite lookup_insert_eq. eauto.
  - intros _ key l. simpl.
    destruct (decide (cache_key d = key)) as [<-|Hne].
    + rewrite lookup_insert_eq. intros [= <-]. right. simpl.
      split; [lia |]. by apply list_elem_of_singleton.
    + rewrite lookup_insert_ne by done. by left.
Qed.

Lemma sound_provide_loader (d : depends) : sound (provide_loader d).
Proof.
  intros self w.
  destruct (ctx self !! cache_key d) as [hit|] eqn:Hc.
  - rewrite (provide_loader_hit _ _ _ _ Hc). exists []. apply follows_refl.
  - rewrite (provide_loader_miss _ _ _ Hc).
    exists [EvNewLoader (cache_key d) (fresh w)].
    destruct (d_isclass d).
    + destruct (set_loader_fields _ _ _ _); simpl.
      * by apply follows_built_raise.
      * by apply follows_built_store.
    + simpl. by apply follows_built_store.
Qed.

Lemma sound_provide_params (ps : list (string * option depends))
    (params : list (string * loader)) : sound (provide_params ps params).
Proof.
  revert params. induction ps as [|[k [d|]] ps IH]; intros params; simpl.
  - apply sound_ret.
  - apply sound_bind; [apply sound_provide_loader | intros l; apply IH].
  - apply IH.
Qed.

Lemma sound_exec_method {V R} (name : string) (m : method_ V)
    (k : awaitable V → M R) :
  sound (k (m_ret m)) → sound (exec_method name m k).
Proof.
  intros Hk. unfold exec_method.
  apply sound_bind; [apply sound_provide_params | intros params].
  apply sound_bind; [by apply sound_log | intros _; apply Hk].
Qed.

(** ** The traversal *)

Lemma await_all_settled {A R} (k : A → R) (val : awaitable A) :
  await_all k val = k (settled val).
Proof. induction val; simpl; auto. Qed.

Lemma returned_both {A B C} (g : A → B → C) (r : exn + A) (rs : exn + B) :
  returned (both g r rs) = returned r && returned rs.
Proof. by destruct r, rs. Qed.

Lemma sound_gather {A B} (f : A → M B) (l : list A) :
  Forall (fun x => sound (f x)) l → sound (gather f l).
Proof.
  induction 1 as [|x l Hx Hl IH]; cbn [gather].
  - apply sound_ret.
  - intros self w.
    destruct (Hx self w) as [tr1 H1].
    destruct (f x self w) as [[self1 w1] r].
    destruct (IH self1 w1) as [tr2 H2].
    destruct (gather f l self1 w1) as [[self2 w2] rs].
    exists (tr1 ++ tr2). cbn [fst snd] in *. rewrite returned_both.
    by eapply follows_seq.
Qed.

Lemma sound_gather_fields {A} (f : obj → A → M obj) (target : obj) (l : list A) :
  Forall (fun x => ∀ t, sound (f t x)) l → sound (gather_fields f target l).
Proof.
  intros H. revert target.
  induction H as [|x l Hx Hl IH]; intros target; cbn [gather_fields].
  - apply sound_ret.
  - intros self w.
    destruct (Hx target self w) as [tr1 H1].
    destruct (f target x self w) as [[self1 w1] [e|target']]; cbn [fst snd] in *.
    + destruct (IH target self1 w1) as [tr2 H2].
      destruct (gather_fields f target l self1 w1) as [[self2 w2] rs].
      exists (tr1 ++ tr2). cbn [fst snd returned] in *.
      by apply (follows_seq false (returned rs) _ _ self1 w1).
    + destruct (IH target' self1 w1) as [tr2 H2].
      exists (tr1 ++ tr2). by eapply follows_trans.
Qed.

Lemma sound_for_each {A} (f : obj → A → M obj) (target : obj) (l : list A) :
  Forall (fun x => ∀ t, sound (f t x)) l → sound (for_each f target l).
Proof.
  intros H. revert target. induction H as [|x l Hx Hl IH]; intros target; simpl.
  - apply sound_ret.
  - apply sound_bind; [apply Hx | intros t'; apply IH].
Qed.

Section EngineFacts.
Variables PREFIX POST_PREFIX : string.
Variable resolve_rec : value → M value.

Lemma sound_resolve_obj (target : obj) (field : string) (item : method) :
  sound (resolve_rec (settled (m_ret item))) →
  sound (resolve_obj PREFIX resolve_rec target (field, item)).
Proof.
  intros Hrec. unfold resolve_obj.
  apply sound_exec_method.
  destruct (negb (hasattr target (target_attr_name PREFIX field))).
  - apply sound_raise.
  - intros self w.
    destruct (ensure_type self && negb (bool_decide (m_annotations item ≠ []))).
    + exists []. apply follows_refl.
    + revert self w.
      change (sound
        (let* val' := await_all resolve_rec (m_ret item) in
         run log (EvSetattr (oid target) (target_attr_name PREFIX field) val') in
         ret (setattr target (target_attr_name PREFIX field) val'))).
      apply sound_bind; [by rewrite await_all_settled | intros val'].
      apply sound_bind; [by apply sound_log | intros _; apply sound_ret].
Qed.

Lemma sound_run_post (target : obj) (ph : string * hook) :
  sound (run_post POST_PREFIX target ph).
Proof.
  destruct ph as [post_key post_method]. unfold run_post.
  destruct (negb (hasattr target (post_attr_name POST_PREFIX post_key))).
  - apply sound_raise.
  - apply sound_bind; [by apply sound_log | intros _].
    destruct (h_async post_method); [apply sound_ret |].
    apply sound_bind; [by apply sound_log | intros _; apply sound_ret].
Qed.

Lemma sound_resolve_object (target : obj) :
  Forall (fun fi : string * method => sound (resolve_rec (settled (m_ret fi.2))))
         (resolvers target) →
  sound (resolve_object PREFIX POST_PREFIX resolve_rec target).
Proof.
  intros H. unfold resolve_object.
  apply sound_bind.
  - apply sound_gather_fields.
    eapply Forall_impl; [exact H |].
    intros [field item] Hs t. by apply sound_resolve_obj.
  - intros target'. apply sound_for_each.
    apply Forall_forall. intros ph _ t. apply sound_run_post.
Qed.
End EngineFacts.

Lemma sound_resolve (PREFIX POST_PREFIX : string) (target : value) :
  sound (resolve PREFIX POST_PREFIX target).
Proof.
  induction target as [a | k items cls Hitems Hcls | o Ho]
    using value_visit_ind.
  - apply sound_ret.
  - cbn [resolve].
    apply sound_bind; [by apply sound_gather | intros items'].
    destruct cls as [o|]; [|apply sound_ret].
    destruct (acceptable o); [|apply sound_ret].
    apply sound_bind; [by apply sound_resolve_object | intros o'; apply sound_ret].
  - cbn [resolve].
    destruct (acceptable o); [|apply sound_ret].
    apply sound_bind; [by apply sound_resolve_object | intros o'; apply sound_ret].
Qed.

(** ** The cache when the resolver is called *)



Lemma exec_method_unfold {V R} (name : string) (m : method_ V)
    (k : awaitable V → M R) (self : Resolver) (w : world) :
  exec_method name m k self w =
    match provide_params (m_params m) [] self w with
    | (s1, w1, inr params) =>
        k (m_ret m) s1
          (emit (EvCall name (map (fun p => (p.1, l_uid p.2)) params)) w1)
    | (s1, w1, inl e) => (s1, w1, inl e)
    end.
Proof.
  unfold exec_method, bind, log.
  by destruct (provide_params _ _ _ _) as [[s1 w1] [e|params]].
Qed.





(** ** Configuration of a loader class *)

Lemma set_loader_fields_ok (key : string) (cfg : gmap string value)
    (fields : list string) (acc : list (string * value)) :
  Forall (fun f => is_Some (cfg !! f)) fields →
  ∃ vs, set_loader_fields key cfg fields acc = inr (acc ++ vs)
        ∧ vs.*1 = fields
        ∧ Forall (fun fv : string * value => cfg !! fv.1 = Some fv.2) vs.
Proof.
  intros H. revert acc.
  induction H as [|f fields [v Hv] _ IH]; intros acc; simpl.
  - exists []. by rewrite app_nil_r.
  - rewrite Hv. destruct (IH (acc ++ [(f, v)])) as (vs & Heq & Hfst & Hall).
    exists ((f, v) :: vs). split; [|split].
    + by rewrite Heq, <- app_assoc.
    + rewrite fmap_cons. simpl. by f_equal.
    + by constructor.
Qed.

Lemma set_loader_fields_missing (key : string) (cfg : gmap string value)
    (fields : list string) (acc : list (string * value)) :
  Exists (fun f => cfg !! f = None) fields →
  ∃ msg, set_loader_fields key cfg fields acc
         = inl (LoaderFieldNotProvidedError msg).
Proof.
  intros H. revert acc.
  induction H as [f fields Hf | f fields _ IH]; intros acc; simpl.
  - rewrite Hf. eauto.
  - destruct (cfg !! f); [apply IH | eauto].
Qed.

(** C5: a loader class is instantiated, then every attribute it declares
    is read from the configuration held for that class and assigned on the
    instance; when a declared attribute has no value the provider raises
    [LoaderFieldNotProvidedError], nothing is cached, and the resolver that
    asked for the loader is not called. *)
Theorem C5_class_loader_configuration (d : depends) (self : Resolver) (w : world) :
  ctx self !! cache_key d = None →
  d_isclass d = true →
  (Forall (fun f => is_Some (filter_config_of d self !! f)) (d_fields d) →
   ∃ vs,
     provide_loader d self w
     = (store (cache_key d) (Loader (fresh w) (cache_key d) true vs) self,
        built d w, inr (Loader (fresh w) (cache_key d) true vs))
     ∧ vs.*1 = d_fields d
     ∧ Forall (fun fv : string * value =>
                 filter_config_of d self !! fv.1 = Some fv.2) vs)
  ∧ (Exists (fun f => filter_config_of d self !! f = None) (d_fields d) →
     ∃ msg,
       provide_loader d self w
       = (self, built d w, inl (LoaderFieldNotProvidedError msg))
       ∧ ∀ name (m : method) (k : awaitable value → M obj) p rest,
           m_params m = (p, Some d) :: rest →
           exec_method name m k self w
           = (self, built d w, inl (LoaderFieldNotProvidedError msg))).
Proof.
  intros Hmiss Hclass.
  pose proof (provide_loader_miss d self w Hmiss) as Hp.
  rewrite Hclass in Hp. split.
  - intros Hall.
    destruct (set_loader_fields_ok (cache_key d) _ _ [] Hall)
      as (vs & Heq & Hfst & Hvs).
    exists vs. rewrite Hp, Heq. done.
  - intros Hex.
    destruct (set_loader_fields_missing (cache_key d) _ _ [] Hex) as [msg Heq].
    exists msg. rewrite Heq in Hp. split; [done |].
    intros name m k p rest Hm.
    rewrite exec_method_unfold, Hm. simpl.
    unfold bind at 1. by rewrite Hp.
Qed.

(** C5 at a class that declares [flt], configured with [flt = 7]. *)
Lemma C5_witness :
  let d := Depends "app.loaders" "BookLoader" true 1 ["flt"] in
  let self := Resolver_init (Some {[ 1 := {[ "flt" := VAtom (AInt 7) ]} ]}) false in
  ∃ vs,
    provide_loader d self (World 0 [])
    = (store (cache_key d) (Loader 0 (cache_key d) true vs) self,
       built d (World 0 []), inr (Loader 0 (cache_key d) true vs))
    ∧ vs.*1 = ["flt"]
    ∧ Forall (fun fv : string * value =>
                filter_config_of d self !! fv.1 = Some fv.2) vs.
Proof.
  intros d self.
  refine (proj1 (C5_class_loader_configuration d self (World 0 []) _ _) _).
  - vm_compute. reflexivity.
  - reflexivity.
  - repeat constructor. vm_compute. eauto.
Defined.

(** ** Post hooks *)

Lemma same_obj_refl (o : obj) : same_obj o o.
Proof. by repeat split. Qed.

Lemma same_obj_trans (o1 o2 o3 : obj) :
  same_obj o1 o2 → same_obj o2 o3 → same_obj o1 o3.
Proof.
  intros (? & ? & ? & ?) (? & ? & ? & ?). repeat split; congruence.
Qed.

Lemma same_obj_setattr (o : obj) (name : string) (v : value) :
  same_obj o (setattr o name v).
Proof. by repeat split. Qed.

Lemma same_obj_run_body (o : obj) (writes : list (string * value)) :
  same_obj o (run_body o writes).
Proof.
  unfold run_body. revert o.
  induction writes as [|[n v] writes IH]; intros o; simpl.
  - apply same_obj_refl.
  - eapply same_obj_trans; [apply (same_obj_setattr o n v) | apply IH].
Qed.

Lemma same_obj_after_hooks (o : obj) (hooks : list (string * hook)) :
  same_obj o (after_hooks o hooks).
Proof.
  unfold after_hooks. revert o.
  induction hooks as [|[k h] hooks IH]; intros o; simpl.
  - apply same_obj_refl.
  - eapply same_obj_trans; [|apply IH].
    destruct (h_async h); [apply same_obj_refl | apply same_obj_run_body].
Qed.

Lemma run_post_unfold (POST_PREFIX : string) (target : obj)
    (post_key : string) (h : hook) (self : Resolver) (w : world) :
  run_post POST_PREFIX target (post_key, h) self w =
    if hasattr target (post_attr_name POST_PREFIX post_key)
    then (self,
          World (fresh w) (trace w ++ post_events (oid target) [(post_key, h)]),
          inr (after_hooks target [(post_key, h)]))
    else (self, w,
          inl (hook_refused post_key (post_attr_name POST_PREFIX post_key))).
Proof.
  unfold run_post, hook_refused, after_hooks, post_events.
  destruct (hasattr target _); simpl; [|done].
  unfold bind, log, ret, emit. simpl.
  destruct (h_async h); simpl; [done |].
  by rewrite <- app_assoc.
Qed.

Lemma for_each_cons {A} (f : obj → A → M obj) (target : obj) (x : A)
    (l : list A) (self : Resolver) (w : world) :
  for_each f target (x :: l) self w =
    match f target x self w with
    | (self', w', inr target') => for_each f target' l self' w'
    | (self', w', inl e) => (self', w', inl e)
    end.
Proof. reflexivity. Qed.

Lemma gather_fields_cons {A} (f : obj → A → M obj) (target : obj) (x : A)
    (l : list A) (self : Resolver) (w : world) :
  gather_fields f target (x :: l) self w =
    match f target x self w with
    | (self1, w1, inr target') => gather_fields f target' l self1 w1
    | (self1, w1, inl e) =>
        ((gather_fields f target l self1 w1).1, inl e)
    end.
Proof.
  cbn [gather_fields].
  destruct (f target x self w) as [[self1 w1] [e|target']]; [|done].
  by destruct (gather_fields f target l self1 w1) as [[self2 w2] r].
Qed.

(** When the tasks of the fields return, each of them returned, on the
    target as the one before it left it. *)
Lemma gather_fields_returned {A} (f : obj → A → M obj) (target : obj) (x : A)
    (l : list A) self w self' w' target' :
  gather_fields f target (x :: l) self w = (self', w', inr target') →
  ∃ s1 w1 t1,
    f target x self w = (s1, w1, inr t1)
    ∧ gather_fields f t1 l s1 w1 = (self', w', inr target').
Proof.
  rewrite gather_fields_cons.
  destruct (f target x self w) as [[s1 w1] [e|t1]]; [done |].
  intros H. by exists s1, w1, t1.
Qed.

(** The loop over the hooks: it runs a prefix of them, in order; it runs
    them all when it returns, and stops at the first hook whose target
    attribute is missing. *)
Lemma run_posts_spec (POST_PREFIX : string) (hooks : list (string * hook))
    (target : obj) (self : Resolver) (w : world) :
  ∃ n, (n ≤ length hooks)%nat
    ∧ (for_each (run_post POST_PREFIX) target hooks self w).1
      = (self, World (fresh w)
                 (trace w ++ post_events (oid target) (take n hooks)))
    ∧ match (for_each (run_post POST_PREFIX) target hooks self w).2 with
      | inr t' => n = length hooks ∧ t' = after_hooks target hooks
      | inl e =>
          ∃ k h, hooks !! n = Some (k, h)
            ∧ hasattr (after_hooks target (take n hooks))
                      (post_attr_name POST_PREFIX k) = false
            ∧ e = hook_refused k (post_attr_name POST_PREFIX k)
      end.
Proof.
  revert target w.
  induction hooks as [|[k h] hooks IH]; intros target w.
  - exists 0. simpl. rewrite app_nil_r. by destruct w.
  - rewrite for_each_cons, run_post_unfold.
    destruct (hasattr target (post_attr_name POST_PREFIX k)) eqn:Hattr.
    + destruct (IH (after_hooks target [(k, h)])
                  (World (fresh w)
                     (trace w ++ post_events (oid target) [(k, h)])))
        as (n & Hn & Hst & Hres).
      assert (Hoid : oid (after_hooks target [(k, h)]) = oid target).
      { symmetry. apply (same_obj_after_hooks target [(k, h)]). }
      rewrite Hoid in Hst.
      exists (S n). split; [simpl; lia |].
      split.
      * rewrite Hst. cbn [take fresh trace].
        change ((k, h) :: take n hooks) with ([(k, h)] ++ take n hooks).
        unfold post_events at 3. rewrite flat_map_app.
        by rewrite <- app_assoc.
      * destruct (for_each _ _ hooks _ _).2 as [e|t'].
        -- destruct Hres as (k' & h' & Hlook & Hno & ->).
           exists k', h'. by repeat split.
        -- destruct Hres as [-> ->]. by split.
    + exists 0. simpl. rewrite app_nil_r. split; [lia |].
      split; [by destruct w |].
      exists k, h. by repeat split.
Qed.

(** ** One field *)

Lemma resolve_obj_unfold (PREFIX : string) (resolve_rec : value → M value)
    (target : obj) (field : string) (item : method)
    (self : Resolver) (w : world) :
  resolve_obj PREFIX resolve_rec target (field, item) self w =
    match provide_params (m_params item) [] self w with
    | (s1, w1, inl e) => (s1, w1, inl e)
    | (s1, w1, inr params) =>
        if negb (hasattr target (target_attr_name PREFIX field))
        then (s1, emit (called field params) w1,
              inl (attr_missing (target_attr_name PREFIX field)))
        else if ensure_type s1 && negb (bool_decide (m_annotations item ≠ []))
        then (s1, emit (called field params) w1,
              inl (annotation_missing field))
        else
          match resolve_rec (settled (m_ret item)) s1
                  (emit (called field params) w1) with
          | (s2, w2, inl e) => (s2, w2, inl e)
          | (s2, w2, inr val') =>
              (s2,
               emit (EvSetattr (oid target) (target_attr_name PREFIX field) val') w2,
               inr (setattr target (target_attr_name PREFIX field) val'))
          end
    end.
Proof.
  unfold resolve_obj. rewrite exec_method_unfold.
  destruct (provide_params _ _ _ _) as [[s1 w1] [e|params]]; [done |].
  fold (called field params).
  destruct (negb (hasattr target _)); [done |].
  destruct (ensure_type s1 && _); [done |].
  unfold bind. rewrite await_all_settled.
  by destruct (resolve_rec _ _ _) as [[s2 w2] [e|val']].
Qed.

Lemma resolve_obj_same (PREFIX : string) (resolve_rec : value → M value)
    (target : obj) (fi : string * method) self w self' w' target' :
  resolve_obj PREFIX resolve_rec target fi self w = (self', w', inr target') →
  same_obj target target'.
Proof.
  destruct fi as [field item]. rewrite resolve_obj_unfold.
  destruct (provide_params _ _ _ _) as [[s1 w1] [e|params]]; [done |].
  destruct (negb (hasattr target _)); [done |].
  destruct (ensure_type s1 && _); [done |].
  destruct (resolve_rec _ _ _) as [[s2 w2] [e|val']]; [done |].
  intros [= <- <- <-]. apply same_obj_setattr.
Qed.

Lemma gather_fields_same {A} (f : obj → A → M obj) (l : list A) :
  (∀ t x s w s' w' t', f t x s w = (s', w', inr t') → same_obj t t') →
  ∀ target self w self' w' target',
    gather_fields f target l self w = (self', w', inr target') →
    same_obj target target'.
Proof.
  intros Hf. induction l as [|x l IH]; intros target self w self' w' target'.
  - intros [= <- <- <-]. apply same_obj_refl.
  - intros (s1 & w1 & t1 & Hx & Hrest)%gather_fields_returned.
    eapply same_obj_trans; [by eapply Hf | by eapply IH].
Qed.

Lemma for_each_same {A} (f : obj → A → M obj) (l : list A) :
  (∀ t x s w s' w' t', f t x s w = (s', w', inr t') → same_obj t t') →
  ∀ target self w self' w' target',
    for_each f target l self w = (self', w', inr target') →
    same_obj target target'.
Proof.
  intros Hf. induction l as [|x l IH]; intros target self w self' w' target'.
  - intros [= <- <- <-]. apply same_obj_refl.
  - rewrite for_each_cons.
    destruct (f target x self w) as [[s1 w1] [e|t1]] eqn:Hx; [done |].
    intros Hrest. eapply same_obj_trans; [by eapply Hf | by eapply IH].
Qed.




(** C10: a hook is called and what it returns is dropped: the outcome of
    the call does not depend on the returned value, which is neither
    awaited nor assigned.  For an [async def] hook the call only produces a
    coroutine: its body does not run and the object is left as it was;
    the body of a plain hook runs at the call. *)
Theorem C10_hook_result_discarded (POST_PREFIX : string) (target : obj)
    (post_key : string) (writes : list (string * value)) :
  (∀ is_async r1 r2,
      run_post POST_PREFIX target (post_key, Hook is_async writes r1)
      = run_post POST_PREFIX target (post_key, Hook is_async writes r2))
  ∧ (hasattr target (post_attr_name POST_PREFIX post_key) = true →
     ∀ r self w,
       run_post POST_PREFIX target (post_key, Hook true writes r) self w
       = (self, emit (EvPostCall (oid target) post_key) w, inr target)
       ∧ run_post POST_PREFIX target (post_key, Hook false writes r) self w
         = (self,
            emit (EvPostBody (oid target) post_key)
                 (emit (EvPostCall (oid target) post_key) w),
            inr (run_body target writes))).
Proof.
  split.
  - done.
  - intros Hattr r self w. unfold run_post. rewrite Hattr. done.
Qed.

(** C10 at an [async def post_total] on an object that has [total]. *)
Lemma C10_witness :
  let target := Obj 1 true [("total", VAtom ANone)] [] [] in
  let self := Resolver_init None false in
  run_post "post_" target
    ("post_total", Hook true [("total", VAtom (AInt 3))] (VAtom (AInt 3)))
    self (World 0 [])
  = (self, World 0 [EvPostCall 1 "post_total"], inr target)
  ∧ run_post "post_" target
      ("post_total", Hook false [("total", VAtom (AInt 3))] (VAtom (AInt 3)))
      self (World 0 [])
    = (self, World 0 [EvPostCall 1 "post_total"; EvPostBody 1 "post_total"],
       inr (Obj 1 true [("total", VAtom (AInt 3))] [] [])).
Proof.
  intros target self.
  exact (proj2 (C10_hook_result_discarded "post_" target "post_total"
                  [("total", VAtom (AInt 3))])
           eq_refl (VAtom (AInt 3)) self (World 0 [])).
Defined.

Lemma assoc_assign {A} (k : string) (a : A) (l : list (string * A)) :
  assoc k (assign k a l) = Some a.
Proof.
  induction l as [|[k' a'] l IH]; simpl.
  - by rewrite String.eqb_refl.
  - destruct (String.eqb k k') eqn:E; simpl.
    + by rewrite String.eqb_refl.
    + by rewrite E.
Qed.



(** C3, on the code: the resolver is called before the target attribute is
    looked up.  For an object without [books], [resolve_books] has been
    called when [ResolverTargetAttrNotFound] is raised; and when the
    resolver declares a loader class whose configuration is missing, the
    error raised is [LoaderFieldNotProvidedError]. *)
Theorem C3_resolver_called_before_check :
  let target (item : method) :=
    Obj 1 true [("id", VAtom (AInt 1))] [("resolve_books", item)] [] in
  let plain : method := Method [] [] (Concrete (VAtom (AInt 5))) in
  let BookLoader := Depends "app.loaders" "BookLoader" true 1 ["flt"] in
  let loading : method :=
    Method [("loader", Some BookLoader)] [] (Concrete (VAtom (AInt 5))) in
  hasattr (target plain) (target_attr_name "resolve_" "resolve_books") = false
  ∧ resolve_obj "resolve_" (resolve "resolve_" "post_") (target plain)
      ("resolve_books", plain) (Resolver_init None false) (World 0 [])
    = (Resolver_init None false,
       World 0 [EvCall "resolve_books" []],
       inl (ResolverTargetAttrNotFound "attribute books not found"))
  ∧ resolve_obj "resolve_" (resolve "resolve_" "post_") (target loading)
      ("resolve_books", loading) (Resolver_init None false) (World 0 [])
    = (Resolver_init None false,
       World 1 [EvNewLoader "app.loaders.BookLoader" 0],
       inl (LoaderFieldNotProvidedError
              "app.loaders.BookLoader.flt not found in Resolver()")).
Proof. repeat split. Qed.

(** C7, on the code: in strict mode the check is on [__annotations__] being
    empty.  A resolver whose only annotation is on a parameter, and which
    has no return annotation, passes; one with no annotation at all
    raises [MissingAnnotationError]. *)
Theorem C7_parameter_annotation_passes :
  let BookLoader := Depends "app.loaders" "BookLoader" false 1 [] in
  let item (annotations : list string) : method :=
    Method [("loader", Some BookLoader)] annotations (Concrete (VAtom (AInt 5))) in
  let target (annotations : list string) :=
    Obj 1 true [("books", VAtom ANone)] [("resolve_books", item annotations)] [] in
  (resolve_obj "resolve_" (resolve "resolve_" "post_") (target ["loader"])
     ("resolve_books", item ["loader"]) (Resolver_init None true) (World 0 [])).2
  = inr (Obj 1 true [("books", VAtom (AInt 5))]
             [("resolve_books", item ["loader"])] [])
  ∧ (resolve_obj "resolve_" (resolve "resolve_" "post_") (target [])
       ("resolve_books", item []) (Resolver_init None true) (World 0 [])).2
    = inl (MissingAnnotationError "resolve_books: return annotation is required").
Proof. repeat split. Qed.

(** ** Identity of the returned value *)

Lemma same_object_seq (k k' : seqkind) (items items' : list value)
    (cls cls' : option obj) :
  same_object (VSeq k items cls) (VSeq k' items' cls')
  ↔ k = k' ∧ Forall2 same_object items items' ∧ same_cls cls cls'.
Proof.
  cbn [same_object]. fold same_cls.
  assert (Hall : ∀ l l',
    (fix all2 (l l' : list value) {struct l} : Prop :=
       match l, l' with
       | [], [] => True
       | x :: r, x' :: r' => same_object x x' ∧ all2 r r'
       | _, _ => False
       end) l l' ↔ Forall2 same_object l l').
  { induction l as [|x l IH]; intros [|x' l'].
    - split; [constructor | done].
    - split; [done | inversion 1].
    - split; [done | inversion 1].
    - rewrite IH. split.
      + intros [? ?]. by constructor.
      + inversion 1; subst. by split. }
  by rewrite Hall.
Qed.

Lemma gather_keeps (f : value → M value) (items : list value) :
  Forall (fun t => keeps_identity (f t) t) items →
  ∀ self w,
    match (gather f items self w).2 with
    | inr items' => Forall2 same_object items items'
    | inl _ => True
    end.
Proof.
  induction 1 as [|t items Ht _ IH]; intros self w; cbn [gather].
  - constructor.
  - specialize (Ht self w).
    destruct (f t self w) as [[s1 w1] r]. specialize (IH s1 w1).
    destruct (gather f items s1 w1) as [[s2 w2] rs]. cbn [snd] in *.
    destruct r as [e|t'], rs as [e'|items']; cbn [both]; try done.
    by constructor.
Qed.

Lemma run_post_same (POST_PREFIX : string) (target : obj)
    (ph : string * hook) self w self' w' target' :
  run_post POST_PREFIX target ph self w = (self', w', inr target') →
  same_obj target target'.
Proof.
  destruct ph as [k h]. rewrite run_post_unfold.
  destruct (hasattr target _); [|done].
  intros [= <- <- <-]. apply (same_obj_after_hooks target [(k, h)]).
Qed.

Lemma resolve_object_same (PREFIX POST_PREFIX : string)
    (resolve_rec : value → M value) (target : obj) self w self' w' target' :
  resolve_object PREFIX POST_PREFIX resolve_rec target self w
  = (self', w', inr target') →
  same_obj target target'.
Proof.
  unfold resolve_object, bind.
  destruct (gather_fields (resolve_obj PREFIX resolve_rec) target _ self w)
    as [[s1 w1] [e|t1]] eqn:Hfields; [done |].
  intros Hposts. eapply same_obj_trans.
  - eapply (gather_fields_same (resolve_obj PREFIX resolve_rec)); [|exact Hfields].
    intros t x s w0 s' w0' t'. apply resolve_obj_same.
  - eapply (for_each_same (run_post POST_PREFIX)); [|exact Hposts].
    intros t x s w0 s' w0' t'. apply run_post_same.
Qed.

Lemma resolve_keeps (PREFIX POST_PREFIX : string) (target : value) :
  keeps_identity (resolve PREFIX POST_PREFIX target) target.
Proof.
  induction target as [a | k items cls Hitems _ | o _] using value_visit_ind;
    intros self w.
  - done.
  - cbn [resolve]. unfold bind.
    pose proof (gather_keeps (resolve PREFIX POST_PREFIX) items Hitems self w) as Hg.
    destruct (gather _ items self w) as [[s1 w1] [e|items']]; cbn [snd] in *;
      [done |].
    destruct cls as [o|].
    + destruct (acceptable o).
      * destruct (resolve_object _ _ _ o s1 w1) as [[s2 w2] [e|o']] eqn:Ho;
          cbn [snd ret]; [done |].
        rewrite same_object_seq. split; [done |]. split; [done |].
        by eapply resolve_object_same.
      * cbn [snd ret]. rewrite same_object_seq. split; [done |].
        split; [done |]. apply same_obj_refl.
    + cbn [snd ret]. rewrite same_object_seq. by split.
  - cbn [resolve]. destruct (acceptable o); [|cbn; apply same_obj_refl].
    unfold bind.
    destruct (resolve_object _ _ _ o self w) as [[s2 w2] [e|o']] eqn:Ho;
      cbn [snd ret]; [done |].
    by eapply resolve_object_same.
Qed.

(** C8: [resolve] returns the value it was given: the same objects, in the
    same shape, with the same methods and hooks, only attribute values
    having been assigned.  A value that is neither a list or tuple nor an
    acceptable object comes back as it is and nothing happens; so do an
    empty collection and an object without resolvers and hooks. *)
Theorem C8_returns_its_argument (PREFIX POST_PREFIX : string) :
  (∀ target self w,
      match (resolve PREFIX POST_PREFIX target self w).2 with
      | inr target' => same_object target target'
      | inl _ => True
      end)
  ∧ (∀ target self w,
      is_collection target = false → is_acceptable_type target = false →
      resolve PREFIX POST_PREFIX target self w = (self, w, inr target))
  ∧ (∀ k cls self w,
      from_option (fun o => resolvers o = [] ∧ posts o = []) True cls →
      resolve PREFIX POST_PREFIX (VSeq k [] cls) self w
      = (self, w, inr (VSeq k [] cls)))
  ∧ (∀ o self w,
      resolvers o = [] → posts o = [] →
      resolve PREFIX POST_PREFIX (VObj o) self w = (self, w, inr (VObj o))).
Proof.
  assert (Hempty : ∀ o self w,
    resolvers o = [] → posts o = [] →
    resolve_object PREFIX POST_PREFIX (resolve PREFIX POST_PREFIX) o self w
    = (self, w, inr o)).
  { intros o self w Hr Hp. unfold resolve_object. rewrite Hr. cbn.
    by rewrite Hp. }
  repeat apply conj.
  - intros target. apply resolve_keeps.
  - intros [a | k items cls | o] self w Hc Ha; simpl in *; [done | done |].
    by rewrite Ha.
  - intros k [o|] self w; cbn; [|done].
    intros [Hr Hp]. destruct (acceptable o); [|done].
    unfold bind. by rewrite Hempty.
  - intros o self w Hr Hp. cbn. destruct (acceptable o); [|done].
    unfold bind. by rewrite Hempty.
Qed.

(** C8 at a string, and at an object without resolvers and hooks. *)
Lemma C8_witness :
  (∀ self w,
     resolve "resolve_" "post_" (VAtom (AStr "name")) self w
     = (self, w, inr (VAtom (AStr "name"))))
  ∧ (∀ self w,
       resolve "resolve_" "post_" (VObj (Obj 1 true [("id", VAtom (AInt 1))] [] []))
         self w
       = (self, w, inr (VObj (Obj 1 true [("id", VAtom (AInt 1))] [] [])))).
Proof.
  split; intros self w.
  - apply (proj1 (proj2 (C8_returns_its_argument "resolve_" "post_")));
      reflexivity.
  - apply (proj2 (proj2 (proj2 (C8_returns_its_argument "resolve_" "post_"))));
      reflexivity.
Defined.

(** ** Collections *)



(** ** The cache and the calls of [resolve] *)




(** * Further properties *)

(** ** What the provider can raise *)

Lemma set_loader_fields_raises (key : string) (cfg : gmap string value)
    (fields : list string) (acc : list (string * value)) (e : exn) :
  set_loader_fields key cfg fields acc = inl e →
  Exists (fun f => cfg !! f = None) fields
  ∧ ∃ msg, e = LoaderFieldNotProvidedError msg.
Proof.
  revert acc. induction fields as [|f fields IH]; intros acc; simpl; [done |].
  destruct (cfg !! f) as [v|] eqn:Hf.
  - intros H. destruct (IH _ H) as [Hex Hmsg]. split; [by right | done].
  - intros [= <-]. split; [by left | eauto].
Qed.

Lemma provide_loader_raises (d : depends) self w self' w' (e : exn) :
  provide_loader d self w = (self', w', inl e) →
  ctx self !! cache_key d = None
  ∧ unconfigured self d
  ∧ ∃ msg, e = LoaderFieldNotProvidedError msg.
Proof.
  destruct (ctx self !! cache_key d) as [hit|] eqn:Hc.
  - by rewrite (provide_loader_hit _ _ _ _ Hc).
  - rewrite (provide_loader_miss _ _ _ Hc).
    destruct (d_isclass d) eqn:Hclass; [|done].
    destruct (set_loader_fields _ _ _ _) as [e'|fs] eqn:Hs; [|done].
    intros [= <- <- <-].
    destruct (set_loader_fields_raises _ _ _ _ _ Hs) as [Hex Hmsg].
    by repeat split.
Qed.

Lemma provide_loader_follows (d : depends) self w self' w' (l : loader) :
  provide_loader d self w = (self', w', inr l) →
  ∃ tr, follows true self w self' w' tr.
Proof.
  intros H. destruct (sound_provide_loader d self w) as [tr Hf].
  rewrite H in Hf. by exists tr.
Qed.

Lemma unconfigured_filters (self self' : Resolver) (d : depends) :
  loader_filters_ctx self' = loader_filters_ctx self →
  unconfigured self' d → unconfigured self d.
Proof.
  unfold unconfigured, filter_config_of. by intros ->.
Qed.

Lemma elem_of_depends_of (ps : list (string * option depends)) (d : depends) :
  d ∈ depends_of ps ↔ ∃ p, (p, Some d) ∈ ps.
Proof.
  unfold depends_of. rewrite list_elem_of_omap. split.
  - intros ([p od] & Hin & Hd). simpl in Hd. subst od. eauto.
  - intros [p Hin]. by exists (p, Some d).
Qed.

Lemma provide_params_raises (ps : list (string * option depends))
    (acc : list (string * loader)) self w self' w' (e : exn) :
  provide_params ps acc self w = (self', w', inl e) →
  ∃ d msg, d ∈ depends_of ps
    ∧ ctx self !! cache_key d = None
    ∧ unconfigured self d
    ∧ e = LoaderFieldNotProvidedError msg.
Proof.
  revert acc self w.
  induction ps as [|[k [d|]] ps IH]; intros acc self w; simpl; [done | |].
  - unfold bind at 1.
    destruct (provide_loader d self w) as [[s1 w1] [e1|l]] eqn:Hd.
    + intros [= <- <- <-].
      destruct (provide_loader_raises _ _ _ _ _ _ Hd) as (Hc & Hu & msg & ->).
      exists d, msg. split; [by left | done].
    + intros Hrest.
      destruct (IH _ _ _ Hrest) as (d' & msg & Hin & Hc & Hu & ->).
      destruct (provide_loader_follows _ _ _ _ _ _ Hd) as [tr Hf].
      exists d', msg. split; [|split; [|split; [|done]]].
      * by right.
      * destruct (ctx self !! cache_key d') as [l0|] eqn:Hl0; [|done].
        apply (fol_keep _ _ _ _ _ _ Hf) in Hl0. congruence.
      * eapply unconfigured_filters; [|exact Hu].
        apply (fol_filters _ _ _ _ _ _ Hf).
  - intros Hrest.
    destruct (IH _ _ _ Hrest) as (d' & msg & Hin & Hc & Hu & ->).
    by exists d', msg.
Qed.

(** X1: [exec_method] raises [LoaderFieldNotProvidedError] only when the
    signature declares a loader class that is not in the cache and has a
    declared field without a configured value; the method is then not
    called, and the cache keeps what it held.  When every declared
    definition is cached or configured, the provision of the loaders does
    not raise it. *)
Theorem X1_exec_method_raises_only_unconfigured (name : string) (m : method)
    (k : awaitable value → M obj) (self : Resolver) (w : world) :
  (∀ s1 w1 msg,
      provide_params (m_params m) [] self w
      = (s1, w1, inl (LoaderFieldNotProvidedError msg)) →
      exec_method name m k self w
      = (s1, w1, inl (LoaderFieldNotProvidedError msg))
      ∧ (∃ d, d ∈ depends_of (m_params m)
          ∧ ctx self !! cache_key d = None
          ∧ unconfigured self d)
      ∧ (∀ key l, ctx self !! key = Some l → ctx s1 !! key = Some l))
  ∧ ((∀ d, d ∈ depends_of (m_params m) →
          ctx self !! cache_key d = None → ¬ unconfigured self d) →
     ∀ msg,
       (provide_params (m_params m) [] self w).2
       ≠ inl (LoaderFieldNotProvidedError msg)).
Proof.
  split.
  - intros s1 w1 msg Hp. split; [by rewrite exec_method_unfold, Hp |].
    split.
    + destruct (provide_params_raises _ _ _ _ _ _ _ Hp)
        as (d & msg' & Hin & Hc & Hu & _).
      by exists d.
    + destruct (sound_provide_params (m_params m) [] self w) as [tr Hf].
      rewrite Hp in Hf. cbn [fst snd] in Hf.
      apply (fol_keep _ _ _ _ _ _ Hf).
  - intros Hno msg Hp.
    destruct (provide_params (m_params m) [] self w) as [[s1 w1] r] eqn:Hpp.
    cbn [snd] in Hp. subst r.
    destruct (provide_params_raises _ _ _ _ _ _ _ Hpp)
      as (d & msg' & Hin & Hc & Hu & _).
    by destruct (Hno d Hin Hc).
Qed.

(** ** What the method is called with *)





(** ** What [resolve] keeps *)

Section Preservation.
Variable I : Resolver → world → Prop.
Hypothesis I_emit : ∀ e self w, I self w → I self (emit e w).
Hypothesis I_provide : ∀ d, preserves I (provide_loader d).

Lemma preserves_ret {A} (a : A) : preserves I (ret a).
Proof. by intros self w. Qed.

Lemma preserves_raise {A} (e : exn) : preserves I (@raise A e).
Proof. by intros self w. Qed.

Lemma preserves_bind {A B} (m : M A) (f : A → M B) :
  preserves I m → (∀ a, preserves I (f a)) → preserves I (bind m f).
Proof.
  intros Hm Hf self w HI. unfold bind.
  specialize (Hm self w HI).
  destruct (m self w) as [[s1 w1] [e|a]]; [done |].
  by apply Hf.
Qed.

Lemma preserves_log (e : event) : preserves I (log e).
Proof. intros self w HI. by apply I_emit. Qed.

Lemma preserves_provide_params (ps : list (string * option depends))
    (acc : list (string * loader)) : preserves I (provide_params ps acc).
Proof.
  revert acc. induction ps as [|[k [d|]] ps IH]; intros acc; simpl.
  - apply preserves_ret.
  - apply preserves_bind; [apply I_provide | intros l; apply IH].
  - apply IH.
Qed.

Lemma preserves_exec_method {V R} (name : string) (m : method_ V)
    (k : awaitable V → M R) :
  preserves I (k (m_ret m)) → preserves I (exec_method name m k).
Proof.
  intros Hk. unfold exec_method.
  apply preserves_bind; [apply preserves_provide_params | intros params].
  apply preserves_bind; [apply preserves_log | intros _; apply Hk].
Qed.

Lemma preserves_gather {A B} (f : A → M B) (l : list A) :
  Forall (fun x => preserves I (f x)) l → preserves I (gather f l).
Proof.
  induction 1 as [|x l Hx Hl IH]; cbn [gather].
  - apply preserves_ret.
  - intros self w HI. specialize (Hx self w HI).
    destruct (f x self w) as [[self1 w1] r]. specialize (IH self1 w1 Hx).
    by destruct (gather f l self1 w1) as [[self2 w2] rs].
Qed.

Lemma preserves_gather_fields {A} (f : obj → A → M obj) (target : obj)
    (l : list A) :
  Forall (fun x => ∀ t, preserves I (f t x)) l →
  preserves I (gather_fields f target l).
Proof.
  intros H. revert target.
  induction H as [|x l Hx Hl IH]; intros target; cbn [gather_fields].
  - apply preserves_ret.
  - intros self w HI. specialize (Hx target self w HI).
    destruct (f target x self w) as [[self1 w1] [e|target']]; cbn [fst snd] in *.
    + specialize (IH target self1 w1 Hx).
      by destruct (gather_fields f target l self1 w1) as [[self2 w2] rs].
    + by apply IH.
Qed.

Lemma preserves_for_each {A} (f : obj → A → M obj) (target : obj)
    (l : list A) :
  Forall (fun x => ∀ t, preserves I (f t x)) l →
  preserves I (for_each f target l).
Proof.
  intros H. revert target. induction H as [|x l Hx Hl IH]; intros target; simpl.
  - apply preserves_ret.
  - apply preserves_bind; [apply Hx | intros t'; apply IH].
Qed.

Lemma preserves_resolve_obj (PREFIX : string) (resolve_rec : value → M value)
    (target : obj) (field : string) (item : method) :
  preserves I (resolve_rec (settled (m_ret item))) →
  preserves I (resolve_obj PREFIX resolve_rec target (field, item)).
Proof.
  intros Hrec. unfold resolve_obj.
  apply preserves_exec_method.
  destruct (negb (hasattr target (target_attr_name PREFIX field))).
  - apply preserves_raise.
  - intros self w.
    destruct (ensure_type self && negb (bool_decide (m_annotations item ≠ []))).
    + done.
    + revert self w.
      change (preserves I
        (let* val' := await_all resolve_rec (m_ret item) in
         run log (EvSetattr (oid target) (target_attr_name PREFIX field) val') in
         ret (setattr target (target_attr_name PREFIX field) val'))).
      apply preserves_bind; [by rewrite await_all_settled | intros val'].
      apply preserves_bind; [apply preserves_log | intros _; apply preserves_ret].
Qed.

Lemma preserves_run_post (POST_PREFIX : string) (target : obj)
    (ph : string * hook) : preserves I (run_post POST_PREFIX target ph).
Proof.
  destruct ph as [post_key post_method]. unfold run_post.
  destruct (negb (hasattr target (post_attr_name POST_PREFIX post_key))).
  - apply preserves_raise.
  - apply preserves_bind; [apply preserves_log | intros _].
    destruct (h_async post_method); [apply preserves_ret |].
    apply preserves_bind; [apply preserves_log | intros _; apply preserves_ret].
Qed.

Lemma preserves_resolve_object (PREFIX POST_PREFIX : string)
    (resolve_rec : value → M value) (target : obj) :
  Forall (fun fi : string * method =>
            preserves I (resolve_rec (settled (m_ret fi.2))))
         (resolvers target) →
  preserves I (resolve_object PREFIX POST_PREFIX resolve_rec target).
Proof.
  intros H. unfold resolve_object.
  apply preserves_bind.
  - apply preserves_gather_fields.
    eapply Forall_impl; [exact H |].
    intros [field item] Hs t. by apply preserves_resolve_obj.
  - intros target'. apply preserves_for_each.
    apply Forall_forall. intros ph _ t. apply preserves_run_post.
Qed.

Lemma preserves_resolve (PREFIX POST_PREFIX : string) (target : value) :
  preserves I (resolve PREFIX POST_PREFIX target).
Proof.
  induction target as [a | k items cls Hitems Hcls | o Ho]
    using value_visit_ind.
  - apply preserves_ret.
  - cbn [resolve].
    apply preserves_bind; [by apply preserves_gather | intros items'].
    destruct cls as [o|]; [|apply preserves_ret].
    destruct (acceptable o); [|apply preserves_ret].
    apply preserves_bind;
      [by apply preserves_resolve_object | intros o'; apply preserves_ret].
  - cbn [resolve].
    destruct (acceptable o); [|apply preserves_ret].
    apply preserves_bind;
      [by apply preserves_resolve_object | intros o'; apply preserves_ret].
Qed.
End Preservation.

Lemma cache_ok_emit (e : event) (self : Resolver) (w : world) :
  cache_ok self w → cache_ok self (emit e w).
Proof. done. Qed.

Lemma cache_ok_init (loader_filters : option (gmap nat (gmap string value)))
    (strict : bool) (w : world) :
  cache_ok (Resolver_init loader_filters strict) w.
Proof. intros key l Hl. cbn in Hl. by rewrite lookup_empty in Hl. Qed.

Lemma cache_ok_built (d : depends) (self : Resolver) (w : world) :
  cache_ok self w → cache_ok self (built d w).
Proof.
  intros Hok key l Hl. destruct (Hok key l Hl) as (Hk & Hu & Hinj).
  split; [done |]. split; [simpl; lia | done].
Qed.

Lemma cache_ok_store (d : depends) (self : Resolver) (w : world)
    (isclass : bool) (fs : list (string * value)) :
  cache_ok self w →
  cache_ok (store (cache_key d) (Loader (fresh w) (cache_key d) isclass fs) self)
           (built d w).
Proof.
  intros Hok key l. cbn [store ctx built fresh].
  destruct (decide (cache_key d = key)) as [<-|Hne].
  - rewrite lookup_insert_eq. intros [= <-]. cbn [l_key l_uid].
    split; [done |]. split; [lia |].
    intros key' l'. destruct (decide (cache_key d = key')) as [<-|Hne']; [done |].
    rewrite lookup_insert_ne by done. intros Hl' Huid.
    destruct (Hok key' l' Hl') as (_ & Hlt & _). lia.
  - rewrite lookup_insert_ne by done. intros Hl.
    destruct (Hok key l Hl) as (Hk & Hu & Hinj).
    split; [done |]. split; [lia |].
    intros key' l'. destruct (decide (cache_key d = key')) as [<-|Hne'].
    + rewrite lookup_insert_eq. intros [= <-]. cbn [l_uid]. lia.
    + rewrite lookup_insert_ne by done. apply Hinj.
Qed.

Lemma cache_ok_provide (d : depends) : preserves cache_ok (provide_loader d).
Proof.
  intros self w Hok.
  destruct (ctx self !! cache_key d) as [hit|] eqn:Hc.
  - by rewrite (provide_loader_hit _ _ _ _ Hc).
  - rewrite (provide_loader_miss _ _ _ Hc).
    destruct (d_isclass d).
    + destruct (set_loader_fields _ _ _ _); cbn [fst snd].
      * by apply cache_ok_built.
      * by apply cache_ok_store.
    + by apply cache_ok_store.
Qed.

(** X3: the cache stays well formed through [resolve], whether it returns
    or raises: every instance sits under the key of its own definition,
    and two different keys never hold the same instance.  A new [Resolver]
    starts well formed. *)
Theorem X3_cache_stays_well_formed (PREFIX POST_PREFIX : string)
    (target : value) (self : Resolver) (w : world) :
  cache_ok self w →
  let out := resolve PREFIX POST_PREFIX target self w in
  cache_ok out.1.1 out.1.2
  ∧ ∀ key1 key2 l1 l2,
      ctx out.1.1 !! key1 = Some l1 → ctx out.1.1 !! key2 = Some l2 →
      key1 ≠ key2 → l_uid l1 ≠ l_uid l2.
Proof.
  intros Hok out.
  assert (Hout : cache_ok out.1.1 out.1.2).
  { apply (preserves_resolve cache_ok cache_ok_emit cache_ok_provide); done. }
  split; [done |].
  intros key1 key2 l1 l2 H1 H2 Hne Huid.
  destruct (Hout key1 l1 H1) as (_ & _ & Hinj).
  apply Hne. symmetry. by apply (Hinj key2 l2).
Qed.

(** X4: [resolve] never changes the configuration of the resolver, neither
    the loader filters nor the strict mode, whether it returns or raises. *)
Theorem X4_configuration_unchanged (PREFIX POST_PREFIX : string)
    (target : value) (self : Resolver) (w : world) :
  loader_filters_ctx (resolve PREFIX POST_PREFIX target self w).1.1
  = loader_filters_ctx self
  ∧ ensure_type (resolve PREFIX POST_PREFIX target self w).1.1
    = ensure_type self.
Proof.
  destruct (sound_resolve PREFIX POST_PREFIX target self w) as [tr Hf].
  split; [apply (fol_filters _ _ _ _ _ _ Hf) | apply (fol_ensure _ _ _ _ _ _ Hf)].
Qed.

(** X3 at [student] on a new [Resolver]. *)
Lemma X3_witness :
  let out :=
    resolve "resolve_" "post_" student (Resolver_init None false) (World 0 []) in
  cache_ok out.1.1 out.1.2
  ∧ ∀ key1 key2 l1 l2,
      ctx out.1.1 !! key1 = Some l1 → ctx out.1.1 !! key2 = Some l2 →
      key1 ≠ key2 → l_uid l1 ≠ l_uid l2.
Proof.
  exact (X3_cache_stays_well_formed "resolve_" "post_" student
           (Resolver_init None false) (World 0 [])
           (cache_ok_init None false (World 0 []))).
Defined.

(** ** What a field step touches *)

Lemma assoc_assign_ne {A} (k k' : string) (a : A) (l : list (string * A)) :
  k' ≠ k → assoc k' (assign k a l) = assoc k' l.
Proof.
  intros Hne. induction l as [|[k0 a0] l IH]; simpl.
  - by apply String.eqb_neq in Hne as ->.
  - destruct (String.eqb k k0) eqn:E; simpl.
    + apply String.eqb_eq in E as <-.
      by apply String.eqb_neq in Hne as ->.
    + by rewrite IH.
Qed.

Lemma has_key_assign {A} (k n : string) (a : A) (l : list (string * A)) :
  has_key n l = true → has_key n (assign k a l) = true.
Proof.
  unfold has_key. destruct (decide (n = k)) as [->|Hne].
  - by rewrite assoc_assign.
  - by rewrite assoc_assign_ne.
Qed.

Lemma hasattr_setattr (target : obj) (k n : string) (v : value) :
  hasattr target n = true → hasattr (setattr target k v) n = true.
Proof.
  unfold hasattr. cbn [setattr attrs resolvers posts].
  rewrite !orb_true_iff. intros [[Ha|Hr]|Hp].
  - left. left. by apply has_key_assign.
  - left. by right.
  - by right.
Qed.





Lemma hasattr_run_body (target : obj) (writes : list (string * value)) (n : string) :
  hasattr target n = true → hasattr (run_body target writes) n = true.
Proof.
  unfold run_body. revert target.
  induction writes as [|[k v] writes IH]; intros target; simpl; [done |].
  intros H. by apply IH, hasattr_setattr.
Qed.

Lemma hasattr_after_hooks (target : obj) (hooks : list (string * hook)) (n : string) :
  hasattr target n = true → hasattr (after_hooks target hooks) n = true.
Proof.
  unfold after_hooks. revert target.
  induction hooks as [|[k h] hooks IH]; intros target; simpl; [done |].
  intros H. apply IH. destruct (h_async h); [done |].
  by apply hasattr_run_body.
Qed.



(** ** Strict mode *)

Lemma provide_params_ensure (ps : list (string * option depends))
    (acc : list (string * loader)) (self : Resolver) (w : world) :
  ensure_type (provide_params ps acc self w).1.1 = ensure_type self.
Proof.
  destruct (sound_provide_params ps acc self w) as [tr Hf].
  apply (fol_ensure _ _ _ _ _ _ Hf).
Qed.

(** X7: without strict mode the annotations of a resolver play no part:
    two resolvers that differ only in their annotations give the same
    outcome. *)
Theorem X7_annotations_ignored_when_not_strict (PREFIX : string)
    (resolve_rec : value → M value) (target : obj) (field : string)
    (ps : list (string * option depends)) (a1 a2 : list string)
    (r : awaitable value) (self : Resolver) (w : world) :
  ensure_type self = false →
  resolve_obj PREFIX resolve_rec target (field, Method ps a1 r) self w
  = resolve_obj PREFIX resolve_rec target (field, Method ps a2 r) self w.
Proof.
  intros Hoff. rewrite !resolve_obj_unfold. cbn [m_params m_annotations m_ret].
  pose proof (provide_params_ensure ps [] self w) as He.
  destruct (provide_params ps [] self w) as [[s1 w1] [e|params]]; [done |].
  cbn [fst] in He. by rewrite He, Hoff.
Qed.

(** X7 at [resolve_age] with and without a return annotation. *)
Lemma X7_witness :
  let target := Obj 1 true [("age", VAtom ANone)] [] [] in
  resolve_obj "resolve_" (resolve "resolve_" "post_") target
    ("resolve_age", Method [] [] (Concrete (VAtom (AInt 12))))
    (Resolver_init None false) (World 0 [])
  = resolve_obj "resolve_" (resolve "resolve_" "post_") target
      ("resolve_age", Method [] ["return"] (Concrete (VAtom (AInt 12))))
      (Resolver_init None false) (World 0 []).
Proof.
  intros target.
  exact (X7_annotations_ignored_when_not_strict "resolve_"
           (resolve "resolve_" "post_") target "resolve_age" [] [] ["return"]
           (Concrete (VAtom (AInt 12))) (Resolver_init None false) (World 0 [])
           eq_refl).
Defined.

(** X8: the order of the checks of a field step.  A missing target
    attribute is reported whatever the strict mode and the annotations
    are.  In strict mode a resolver without any annotation, on an object
    that has the target attribute, raises [MissingAnnotationError]: this
    happens after the method was called and before what it returned is
    awaited or resolved, and nothing is assigned. *)
Theorem X8_order_of_the_checks (PREFIX : string)
    (resolve_rec : value → M value) (target : obj) (field : string)
    (item : method) (self : Resolver) (w : world) s1 w1 params :
  provide_params (m_params item) [] self w = (s1, w1, inr params) →
  (hasattr target (target_attr_name PREFIX field) = false →
   resolve_obj PREFIX resolve_rec target (field, item) self w
   = (s1, emit (called field params) w1,
      inl (attr_missing (target_attr_name PREFIX field))))
  ∧ (hasattr target (target_attr_name PREFIX field) = true →
     ensure_type self = true → m_annotations item = [] →
     resolve_obj PREFIX resolve_rec target (field, item) self w
     = (s1, emit (called field params) w1, inl (annotation_missing field))).
Proof.
  intros Hp. rewrite resolve_obj_unfold, Hp.
  pose proof (provide_params_ensure (m_params item) [] self w) as He.
  rewrite Hp in He. cbn [fst] in He. split.
  - by intros ->.
  - intros -> Hon ->. by rewrite He, Hon.
Qed.

(** X8 at a resolver without annotations, in strict mode. *)
Lemma X8_witness :
  let item : method := Method [] [] (Concrete (VAtom (AInt 12))) in
  let self := Resolver_init None true in
  (hasattr (Obj 1 true [("age", VAtom ANone)] [] [])
           (target_attr_name "resolve_" "resolve_age") = false →
   resolve_obj "resolve_" (resolve "resolve_" "post_")
     (Obj 1 true [("age", VAtom ANone)] [] []) ("resolve_age", item)
     self (World 0 [])
   = (self, emit (called "resolve_age" []) (World 0 []),
      inl (attr_missing (target_attr_name "resolve_" "resolve_age"))))
  ∧ (hasattr (Obj 1 true [("age", VAtom ANone)] [] [])
             (target_attr_name "resolve_" "resolve_age") = true →
     ensure_type self = true → m_annotations item = [] →
     resolve_obj "resolve_" (resolve "resolve_" "post_")
       (Obj 1 true [("age", VAtom ANone)] [] []) ("resolve_age", item)
       self (World 0 [])
     = (self, emit (called "resolve_age" []) (World 0 []),
        inl (annotation_missing "resolve_age"))).
Proof.
  intros item self.
  exact (X8_order_of_the_checks "resolve_" (resolve "resolve_" "post_")
           (Obj 1 true [("age", VAtom ANone)] [] []) "resolve_age" item
           self (World 0 []) self (World 0 []) [] eq_refl).
Defined.

(** ** Derived names *)

(** X9: the attribute name derived from a method name.  A leading prefix
    is removed, and so is every later occurrence of it; when the prefix
    occurs only at the head the derived name is the rest of the method
    name; a method name in which the prefix does not occur is its own
    derived name. *)
Theorem X9_derived_attribute_name (prefix rest : string) :
  prefix ≠ EmptyString →
  target_attr_name prefix (prefix ++ rest) = target_attr_name prefix rest
  ∧ post_attr_name prefix (prefix ++ rest) = post_attr_name prefix rest
  ∧ (occurs prefix rest = false →
     target_attr_name prefix (prefix ++ rest) = rest
     ∧ post_attr_name prefix (prefix ++ rest) = rest
     ∧ target_attr_name prefix rest = rest).
Proof.
  intros Hne. unfold target_attr_name, post_attr_name.
  split; [by apply str_remove_leading |].
  split; [by apply str_remove_leading |].
  intros Habsent. split; [by apply str_remove_strips |].
  split; [by apply str_remove_strips | by apply str_remove_absent].
Qed.

(** X9 at [resolve_books] and [post_books]. *)
Lemma X9_witness :
  target_attr_name "resolve_" "resolve_books" = target_attr_name "resolve_" "books"
  ∧ post_attr_name "resolve_" "resolve_books" = post_attr_name "resolve_" "books"
  ∧ (occurs "resolve_" "books" = false →
     target_attr_name "resolve_" "resolve_books" = "books"
     ∧ post_attr_name "resolve_" "resolve_books" = "books"
     ∧ target_attr_name "resolve_" "books" = "books").
Proof.
  exact (X9_derived_attribute_name "resolve_" "books"
           ltac:(discriminate)).
Defined.

(** ** Plain data *)

Lemma gather_plain (f : value → M value) (items : list value) :
  Forall (fun t => plain t = true → ∀ self w, f t self w = (self, w, inr t)) items →
  forallb plain items = true →
  ∀ self w, gather f items self w = (self, w, inr items).
Proof.
  induction 1 as [|t items Ht _ IH]; simpl; [done |].
  intros [Hp Hrest]%andb_true_iff self w.
  unfold bind. by rewrite Ht, IH.
Qed.

(** X10: on plain data, lists and tuples nested to any depth whose items
    are values that are not acceptable objects, [resolve] returns the
    value as it is, calls nothing, raises nothing and leaves the resolver
    untouched. *)
Theorem X10_plain_data_untouched (PREFIX POST_PREFIX : string) (target : value) :
  plain target = true →
  ∀ self w, resolve PREFIX POST_PREFIX target self w = (self, w, inr target).
Proof.
  induction target as [a | k items cls Hitems _ | o _] using value_visit_ind.
  - done.
  - cbn [plain resolve]. intros [Hall Hcls]%andb_true_iff self w.
    unfold bind. rewrite (gather_plain _ _ Hitems Hall).
    destruct cls as [o|]; [|done]. cbn in Hcls.
    by destruct (acceptable o).
  - cbn [plain resolve]. intros Ho self w. by destruct (acceptable o).
Qed.

(** X10 at [[1, (2, 3)]]. *)
Lemma X10_witness :
  let v :=
    VSeq KList [VAtom (AInt 1);
                VSeq KTuple [VAtom (AInt 2); VAtom (AInt 3)] None] None in
  resolve "resolve_" "post_" v (Resolver_init None false) (World 0 [])
  = (Resolver_init None false, World 0 [], inr v).
Proof.
  intros v.
  exact (X10_plain_data_untouched "resolve_" "post_" v eq_refl
           (Resolver_init None false) (World 0 [])).
Defined.

(** ** Calls and assignments *)
















(** X11 cannot be strengthened to an equality on a run that raises:
    for an object without [books] the resolver is called and nothing is
    assigned. *)
Example call_without_assignment :
  let item : method := Method [] [] (Concrete (VAtom (AInt 5))) in
  let out :=
    resolve "resolve_" "post_"
      (VObj (Obj 1 true [] [("resolve_books", item)] []))
      (Resolver_init None false) (World 0 []) in
  calls (trace out.1.2) = 1 ∧ assignments (trace out.1.2) = 0.
Proof. done. Qed.

(** ** What the cache holds when [resolve] returns *)

Lemma constructed_elem_of (key : string) (uid : nat) (tr : list event) :
  EvNewLoader key uid ∈ tr → (1 ≤ constructed key tr)%nat.
Proof.
  induction tr as [|e tr IH]; [by intros ?%elem_of_nil |].
  intros [<-|Hin]%elem_of_cons.
  - simpl. rewrite String.eqb_refl. lia.
  - specialize (IH Hin). destruct e; simpl; lia.
Qed.

(** X12: when [resolve] returns, the cache holds what it held before and
    one instance for every definition built during the call, and nothing
    else: no entry is evicted or replaced. *)
Theorem X12_cache_grows_by_what_was_built (PREFIX POST_PREFIX : string)
    (target : value) (self : Resolver) (w : world) :
  returned (resolve PREFIX POST_PREFIX target self w).2 = true →
  ∃ tr,
    trace (resolve PREFIX POST_PREFIX target self w).1.2 = trace w ++ tr
    ∧ (∀ key, is_Some (ctx (resolve PREFIX POST_PREFIX target self w).1.1 !! key)
              ↔ is_Some (ctx self !! key) ∨ constructed key tr = 1)
    ∧ (∀ key l, ctx self !! key = Some l →
                ctx (resolve PREFIX POST_PREFIX target self w).1.1 !! key = Some l).
Proof.
  intros Hret.
  destruct (sound_resolve PREFIX POST_PREFIX target self w) as [tr Hf].
  rewrite Hret in Hf.
  exists tr. split; [apply (fol_trace _ _ _ _ _ _ Hf) |]. split.
  - intros key. split.
    + intros [l Hl].
      destruct (fol_origin _ _ _ _ _ _ Hf eq_refl key l Hl) as [Hold|[_ Hin]].
      * left. eauto.
      * right. apply constructed_elem_of in Hin.
        pose proof (fol_once _ _ _ _ _ _ Hf eq_refl key). lia.
    + intros [[l Hl]|Hc].
      * exists l. by apply (fol_keep _ _ _ _ _ _ Hf).
      * by apply (fol_stored _ _ _ _ _ _ Hf eq_refl).
  - intros key l. apply (fol_keep _ _ _ _ _ _ Hf).
Qed.

(** X12 at [student] on a new [Resolver]. *)
Lemma X12_witness :
  let out :=
    resolve "resolve_" "post_" student (Resolver_init None false) (World 0 []) in
  ∃ tr,
    trace out.1.2 = [] ++ tr
    ∧ (∀ key, is_Some (ctx out.1.1 !! key)
              ↔ is_Some (ctx (Resolver_init None false) !! key)
                ∨ constructed key tr = 1)
    ∧ (∀ key l, ctx (Resolver_init None false) !! key = Some l →
                ctx out.1.1 !! key = Some l).
Proof.
  exact (X12_cache_grows_by_what_was_built "resolve_" "post_" student
           (Resolver_init None false) (World 0 []) eq_refl).
Defined.

(** ** The repository's test of return types *)

(** [test_resolve_future]: [scores] comes from an [async def], [age] and
    [name] from plain functions, [future] from a future set later. *)
Example test_resolve_future :
  let Student :=
    Obj 1 true
      [("scores", VSeq KList [] None); ("age", VAtom ANone);
       ("name", VAtom ANone); ("future", VAtom ANone)]
      [("resolve_scores",
        Method [] [] (Coroutine (Concrete
          (VSeq KList [VAtom (AInt 1); VAtom (AInt 2); VAtom (AInt 3)] None))));
       ("resolve_age", Method [] [] (Concrete (VAtom (AInt 12))));
       ("resolve_name", Method [] [] (Concrete (VAtom (AStr "name"))));
       ("resolve_future", Method [] [] (Future (Concrete (VAtom (AStr "hello")))))]
      [] in
  match (resolve "resolve_" "post_" (VObj Student)
           (Resolver_init None false) (World 0 [])).2 with
  | inr (VObj result) =>
      attrs result
      = [("scores", VSeq KList [VAtom (AInt 1); VAtom (AInt 2); VAtom (AInt 3)] None);
         ("age", VAtom (AInt 12)); ("name", VAtom (AStr "name"));
         ("future", VAtom (AStr "hello"))]
  | _ => False
  end.
Proof. done. Qed.

(** ** When [resolve] returns *)

Section WellDeclared.
Variables PREFIX POST_PREFIX : string.
Variable filters : gmap nat (gmap string value).
Variable strict : bool.

Lemma well_declared_obj (o : obj) :
  well_declared PREFIX POST_PREFIX filters strict (VObj o)
  ↔ (acceptable o = true → obj_declared PREFIX POST_PREFIX filters strict o).
Proof.
  cbn [well_declared]. unfold obj_declared.
  assert (Haw : ∀ a : awaitable value,
    (fix aw (a : awaitable value) : Prop :=
       match a with
       | Concrete x => well_declared PREFIX POST_PREFIX filters strict x
       | Coroutine a' => aw a'
       | Future a' => aw a'
       end) a
    ↔ well_declared PREFIX POST_PREFIX filters strict (settled a)).
  { induction a as [x|a IH|a IH]; [done | exact IH | exact IH]. }
  assert (Hfs : ∀ l : list (string * method),
    (fix fs (l : list (string * method)) : Prop :=
       match l with
       | [] => True
       | fi :: rest =>
           (field_declared PREFIX filters strict o fi
            ∧ (fix aw (a : awaitable value) : Prop :=
                 match a with
                 | Concrete x => well_declared PREFIX POST_PREFIX filters strict x
                 | Coroutine a' => aw a'
                 | Future a' => aw a'
                 end) (m_ret fi.2))
           ∧ fs rest
       end) l
    ↔ Forall (fun fi : string * method =>
                field_declared PREFIX filters strict o fi
                ∧ well_declared PREFIX POST_PREFIX filters strict
                    (settled (m_ret fi.2))) l).
  { induction l as [|fi l IH]; [by split; [constructor |] |].
    rewrite Forall_cons, <- IH, Haw. done. }
  by rewrite Hfs.
Qed.

Lemma well_declared_seq (k : seqkind) (items : list value) (cls : option obj) :
  well_declared PREFIX POST_PREFIX filters strict (VSeq k items cls)
  ↔ Forall (well_declared PREFIX POST_PREFIX filters strict) items
    ∧ from_option
        (fun o => acceptable o = true →
                  obj_declared PREFIX POST_PREFIX filters strict o) True cls.
Proof.
  assert (Hit : ∀ l : list value,
    (fix it (l : list value) : Prop :=
       match l with
       | [] => True
       | x :: rest => well_declared PREFIX POST_PREFIX filters strict x ∧ it rest
       end) l
    ↔ Forall (well_declared PREFIX POST_PREFIX filters strict) l).
  { induction l as [|x l IH]; [by split; [constructor |] |].
    by rewrite Forall_cons, <- IH. }
  destruct cls as [o|].
  - rewrite <- (well_declared_obj o). cbn [well_declared from_option].
    by rewrite Hit.
  - cbn [well_declared from_option]. by rewrite Hit.
Qed.

Lemma configured_not_unconfigured (self : Resolver) (d : depends) :
  configured (loader_filters_ctx self) d → ¬ unconfigured self d.
Proof.
  intros Hc [Hclass Hex]. specialize (Hc Hclass).
  apply Exists_exists in Hex as (f & Hin & Hnone).
  rewrite Forall_forall in Hc. destruct (Hc f Hin) as [v Hv].
  unfold filter_config_of in Hnone. congruence.
Qed.

Lemma provide_params_returns (ps : list (string * option depends))
    (self : Resolver) (w : world) :
  config_is filters strict self →
  Forall (configured filters) (depends_of ps) →
  ∃ s1 w1 params,
    provide_params ps [] self w = (s1, w1, inr params)
    ∧ config_is filters strict s1.
Proof.
  intros [Hfil Hstr] Hall.
  destruct (sound_provide_params ps [] self w) as [tr Hf].
  destruct (provide_params ps [] self w) as [[s1 w1] [e|params]] eqn:Hp.
  - destruct (provide_params_raises _ _ _ _ _ _ _ Hp) as (d & msg & Hin & _ & Hu & _).
    rewrite Forall_forall in Hall. specialize (Hall d Hin).
    rewrite <- Hfil in Hall. by destruct (configured_not_unconfigured self d).
  - exists s1, w1, params. split; [done |]. cbn [fst snd] in Hf. split.
    + by rewrite (fol_filters _ _ _ _ _ _ Hf).
    + by rewrite (fol_ensure _ _ _ _ _ _ Hf).
Qed.

Lemma returns_ret {A} (a : A) : returns filters strict (ret a).
Proof. by intros self w Hc. Qed.

Lemma returns_bind {A B} (m : M A) (f : A → M B) :
  returns filters strict m → (∀ a, returns filters strict (f a)) →
  returns filters strict (bind m f).
Proof.
  intros Hm Hf self w Hc. unfold bind.
  destruct (Hm self w Hc) as [Hret Hc1].
  destruct (m self w) as [[s1 w1] [e|a]]; [done |].
  by apply Hf.
Qed.

Lemma returns_gather {A B} (f : A → M B) (l : list A) :
  Forall (fun x => returns filters strict (f x)) l →
  returns filters strict (gather f l).
Proof.
  induction 1 as [|x l Hx Hl IH]; cbn [gather].
  - apply returns_ret.
  - intros self w Hc. destruct (Hx self w Hc) as [Hret Hc1].
    destruct (f x self w) as [[s1 w1] r]. cbn [fst snd] in *.
    destruct (IH s1 w1 Hc1) as [Hret2 Hc2].
    destruct (gather f l s1 w1) as [[s2 w2] rs]. cbn [fst snd] in *.
    split; [|done]. by rewrite returned_both, Hret, Hret2.
Qed.

Lemma resolve_obj_returns (resolve_rec : value → M value)
    (o target : obj) (fi : string * method) (self : Resolver) (w : world) :
  field_declared PREFIX filters strict o fi →
  returns filters strict (resolve_rec (settled (m_ret fi.2))) →
  (∀ n, hasattr o n = true → hasattr target n = true) →
  config_is filters strict self →
  ∃ s' w' target',
    resolve_obj PREFIX resolve_rec target fi self w = (s', w', inr target')
    ∧ config_is filters strict s'
    ∧ (∀ n, hasattr o n = true → hasattr target' n = true).
Proof.
  destruct fi as [field item].
  intros (Hattr & Hdeps & Hann) Hrec Hmono Hc. cbn [fst snd] in *.
  destruct (provide_params_returns (m_params item) self w Hc Hdeps)
    as (s1 & w1 & params & Hp & Hc1).
  rewrite resolve_obj_unfold, Hp, (Hmono _ Hattr). cbn [negb].
  assert (Hens : ensure_type s1 && negb (bool_decide (m_annotations item ≠ []))
                 = false).
  { destruct Hc1 as [_ ->]. destruct strict; [|done].
    by rewrite (bool_decide_eq_true_2 _ (Hann eq_refl)). }
  rewrite Hens.
  destruct (Hrec s1 (emit (called field params) w1) Hc1) as [Hret Hc2].
  destruct (resolve_rec _ _ _) as [[s2 w2] [e|val']]; [done |].
  eexists _, _, _. split; [done |]. split; [done |].
  intros n Hn. by apply hasattr_setattr, Hmono.
Qed.

Lemma field_phase_returns (resolve_rec : value → M value) (o : obj)
    (fields : list (string * method)) (target : obj)
    (self : Resolver) (w : world) :
  Forall (fun fi : string * method =>
            field_declared PREFIX filters strict o fi
            ∧ returns filters strict (resolve_rec (settled (m_ret fi.2))))
         fields →
  (∀ n, hasattr o n = true → hasattr target n = true) →
  config_is filters strict self →
  ∃ s' w' target',
    gather_fields (resolve_obj PREFIX resolve_rec) target fields self w
    = (s', w', inr target')
    ∧ config_is filters strict s'
    ∧ (∀ n, hasattr o n = true → hasattr target' n = true).
Proof.
  intros H. revert target self w.
  induction H as [|fi fields [Hfi Hrec] _ IH]; intros target self w Hmono Hc.
  - by exists self, w, target.
  - rewrite gather_fields_cons.
    destruct (resolve_obj_returns resolve_rec o target fi self w Hfi Hrec Hmono Hc)
      as (s1 & w1 & t1 & -> & Hc1 & Hmono1).
    by apply IH.
Qed.

Lemma hook_phase_returns (hooks : list (string * hook)) (target : obj)
    (self : Resolver) (w : world) :
  Forall (fun kh : string * hook =>
            hasattr target (post_attr_name POST_PREFIX kh.1) = true) hooks →
  returned (for_each (run_post POST_PREFIX) target hooks self w).2 = true
  ∧ (for_each (run_post POST_PREFIX) target hooks self w).1.1 = self.
Proof.
  intros Hall.
  destruct (run_posts_spec POST_PREFIX hooks target self w) as (n & _ & Hst & Hres).
  split; [|by rewrite Hst].
  destruct (for_each _ _ _ _ _).2 as [e|t']; [|done].
  destruct Hres as (k & h & Hlook & Hno & _).
  rewrite Forall_forall in Hall.
  apply list_elem_of_lookup_2 in Hlook. specialize (Hall _ Hlook). cbn in Hall.
  by rewrite (hasattr_after_hooks _ _ _ Hall) in Hno.
Qed.

Lemma resolve_object_returns (resolve_rec : value → M value) (o : obj) :
  Forall (fun fi : string * method =>
            field_declared PREFIX filters strict o fi
            ∧ returns filters strict (resolve_rec (settled (m_ret fi.2))))
         (resolvers o) →
  Forall (fun kh : string * hook =>
            hasattr o (post_attr_name POST_PREFIX kh.1) = true) (posts o) →
  returns filters strict (resolve_object PREFIX POST_PREFIX resolve_rec o).
Proof.
  intros Hfields Hposts self w Hc. unfold resolve_object, bind.
  destruct (field_phase_returns resolve_rec o (resolvers o) o self w Hfields)
    as (s1 & w1 & t1 & Hrun & Hc1 & Hmono); [done | done |].
  rewrite Hrun.
  assert (Hsame : same_obj o t1).
  { eapply (gather_fields_same (resolve_obj PREFIX resolve_rec)); [|exact Hrun].
    intros t x s w0 s' w' t'. apply resolve_obj_same. }
  destruct Hsame as (_ & _ & _ & <-).
  destruct (hook_phase_returns (posts o) t1 s1 w1) as [Hret Hself].
  { eapply Forall_impl; [exact Hposts |]. intros kh. apply Hmono. }
  split; [done |]. by rewrite Hself.
Qed.
End WellDeclared.

Lemma well_declared_returns (PREFIX POST_PREFIX : string)
    (filters : gmap nat (gmap string value)) (strict : bool) (target : value) :
  well_declared PREFIX POST_PREFIX filters strict target →
  returns filters strict (resolve PREFIX POST_PREFIX target).
Proof.
  assert (Hobj : ∀ o,
    fields_hold (fun v => well_declared PREFIX POST_PREFIX filters strict v →
                          returns filters strict (resolve PREFIX POST_PREFIX v)) o →
    obj_declared PREFIX POST_PREFIX filters strict o →
    returns filters strict
      (resolve_object PREFIX POST_PREFIX (resolve PREFIX POST_PREFIX) o)).
  { intros o IH [Hfields Hposts].
    apply resolve_object_returns; [|done].
    unfold fields_hold in IH. rewrite Forall_forall in IH, Hfields.
    apply Forall_forall. intros fi Hin.
    destruct (Hfields fi Hin) as [Hfd Hwd]. split; [done |].
    by apply IH. }
  induction target as [a | k items cls Hitems Hcls | o Ho]
    using value_visit_ind.
  - intros _. apply returns_ret.
  - rewrite well_declared_seq. intros [Hwd Hdecl]. cbn [resolve].
    apply returns_bind.
    + apply returns_gather. rewrite Forall_forall in Hitems, Hwd.
      apply Forall_forall. intros x Hin. by apply Hitems, Hwd.
    + intros items'. destruct cls as [o|]; [|apply returns_ret].
      destruct (acceptable o) eqn:Hacc; [|apply returns_ret].
      apply returns_bind; [|intros o'; apply returns_ret].
      apply Hobj; [exact Hcls | by apply Hdecl].
  - rewrite well_declared_obj. intros Hdecl. cbn [resolve].
    destruct (acceptable o) eqn:Hacc; [|apply returns_ret].
    apply returns_bind; [|intros o'; apply returns_ret].
    apply Hobj; [exact Ho | by apply Hdecl].
Qed.

(** X13: on a well declared value [resolve] raises none of
    [ResolverTargetAttrNotFound], [LoaderFieldNotProvidedError] and
    [MissingAnnotationError].  A value is well declared when, for every
    acceptable object that is visited, each resolver has its target
    attribute on the object, declares only configured loader classes and,
    in strict mode, carries an annotation, and each hook has its target
    attribute on the object. *)
Theorem X13_well_declared_resolves (PREFIX POST_PREFIX : string)
    (target : value) (self : Resolver) (w : world) :
  well_declared PREFIX POST_PREFIX (loader_filters_ctx self) (ensure_type self)
                target →
  ∀ msg,
    (resolve PREFIX POST_PREFIX target self w).2
    ≠ inl (ResolverTargetAttrNotFound msg)
    ∧ (resolve PREFIX POST_PREFIX target self w).2
      ≠ inl (LoaderFieldNotProvidedError msg)
    ∧ (resolve PREFIX POST_PREFIX target self w).2
      ≠ inl (MissingAnnotationError msg).
Proof.
  intros Hwd msg.
  destruct (well_declared_returns _ _ _ _ _ Hwd self w) as [Hret _];
    [done |].
  by destruct (resolve PREFIX POST_PREFIX target self w).2.
Qed.

(** X13 at [student]. *)
Lemma X13_witness :
  (resolve "resolve_" "post_" student (Resolver_init None false) (World 0 [])).2
  ≠ inl (ResolverTargetAttrNotFound "attribute books not found")
  ∧ (resolve "resolve_" "post_" student (Resolver_init None false) (World 0 [])).2
    ≠ inl (LoaderFieldNotProvidedError "attribute books not found")
  ∧ (resolve "resolve_" "post_" student (Resolver_init None false) (World 0 [])).2
    ≠ inl (MissingAnnotationError "attribute books not found").
Proof.
  apply X13_well_declared_resolves.
  apply well_declared_obj. intros _. split.
  - constructor; [|constructor]. split; [|exact I].
    split; [reflexivity |]. split; [|discriminate].
    constructor; [|constructor]. discriminate.
  - constructor.
Defined.

(** ** Without strict mode *)

Lemma lenient_ret {A} (a : A) : lenient (ret a).
Proof. by intros self w Hoff. Qed.

Lemma lenient_bind {A B} (m : M A) (f : A → M B) :
  lenient m → (∀ a, lenient (f a)) → lenient (bind m f).
Proof.
  intros Hm Hf self w Hoff. unfold bind.
  destruct (Hm self w Hoff) as [Hoff1 Hne].
  destruct (m self w) as [[s1 w1] [e|a]]; cbn [fst snd] in *.
  - split; [done |]. intros msg [= ->]. by apply (Hne msg).
  - by apply Hf.
Qed.

Lemma lenient_gather {A B} (f : A → M B) (l : list A) :
  Forall (fun x => lenient (f x)) l → lenient (gather f l).
Proof.
  induction 1 as [|x l Hx Hl IH]; cbn [gather].
  - apply lenient_ret.
  - intros self w Hoff. destruct (Hx self w Hoff) as [Hoff1 Hne1].
    destruct (f x self w) as [[s1 w1] r]. cbn [fst snd] in *.
    destruct (IH s1 w1 Hoff1) as [Hoff2 Hne2].
    destruct (gather f l s1 w1) as [[s2 w2] rs]. cbn [fst snd] in *.
    split; [done |]. intros msg.
    destruct r as [e|y], rs as [e'|ys]; cbn [both]; try discriminate.
    + intros [= ->]. by apply (Hne1 msg).
    + intros [= ->]. by apply (Hne1 msg).
    + intros [= ->]. by apply (Hne2 msg).
Qed.

Lemma lenient_gather_fields {A} (f : obj → A → M obj) (target : obj)
    (l : list A) :
  Forall (fun x => ∀ t, lenient (f t x)) l → lenient (gather_fields f target l).
Proof.
  intros H. revert target.
  induction H as [|x l Hx Hl IH]; intros target; cbn [gather_fields].
  - apply lenient_ret.
  - intros self w Hoff. destruct (Hx target self w Hoff) as [Hoff1 Hne1].
    destruct (f target x self w) as [[s1 w1] [e|target']]; cbn [fst snd] in *.
    + destruct (IH target s1 w1 Hoff1) as [Hoff2 _].
      destruct (gather_fields f target l s1 w1) as [[s2 w2] rs].
      cbn [fst snd] in *. split; [done |].
      intros msg [= ->]. by apply (Hne1 msg).
    + by apply IH.
Qed.

Lemma lenient_for_each {A} (f : obj → A → M obj) (target : obj)
    (l : list A) :
  Forall (fun x => ∀ t, lenient (f t x)) l → lenient (for_each f target l).
Proof.
  intros H. revert target. induction H as [|x l Hx Hl IH]; intros target; simpl.
  - apply lenient_ret.
  - apply lenient_bind; [apply Hx | intros t'; apply IH].
Qed.

Lemma lenient_run_post (POST_PREFIX : string) (target : obj)
    (ph : string * hook) : lenient (run_post POST_PREFIX target ph).
Proof.
  destruct ph as [k h]. intros self w Hoff. rewrite run_post_unfold.
  by destruct (hasattr target _).
Qed.

Lemma lenient_resolve_obj (PREFIX : string) (resolve_rec : value → M value)
    (target : obj) (field : string) (item : method) :
  lenient (resolve_rec (settled (m_ret item))) →
  lenient (resolve_obj PREFIX resolve_rec target (field, item)).
Proof.
  intros Hrec self w Hoff. rewrite resolve_obj_unfold.
  pose proof (provide_params_ensure (m_params item) [] self w) as He.
  destruct (provide_params (m_params item) [] self w)
    as [[s1 w1] [e|params]] eqn:Hp; cbn [fst snd] in *.
  - split; [congruence |]. intros msg [= ->].
    by destruct (provide_params_raises _ _ _ _ _ _ _ Hp) as (? & ? & _ & _ & _ & ?).
  - assert (Hoff1 : ensure_type s1 = false) by congruence.
    rewrite Hoff1. cbn [andb].
    destruct (negb (hasattr target _)); cbn [fst snd].
    { split; [done |]. intros msg. unfold attr_missing. discriminate. }
    destruct (Hrec s1 (emit (called field params) w1) Hoff1) as [Hoff2 Hne].
    destruct (resolve_rec _ _ _) as [[s2 w2] [e|val']]; cbn [fst snd] in *.
    + split; [exact Hoff2 |]. intros msg [= ->]. by apply (Hne msg).
    + split; [exact Hoff2 |]. intros msg. discriminate.
Qed.

Lemma lenient_resolve_object (PREFIX POST_PREFIX : string)
    (resolve_rec : value → M value) (target : obj) :
  Forall (fun fi : string * method =>
            lenient (resolve_rec (settled (m_ret fi.2))))
         (resolvers target) →
  lenient (resolve_object PREFIX POST_PREFIX resolve_rec target).
Proof.
  intros H. unfold resolve_object.
  apply lenient_bind.
  - apply lenient_gather_fields.
    eapply Forall_impl; [exact H |].
    intros [field item] Hs t. by apply lenient_resolve_obj.
  - intros target'. apply lenient_for_each.
    apply Forall_forall. intros ph _ t. apply lenient_run_post.
Qed.

(** X14: a [Resolver] built without [ensure_type] never raises
    [MissingAnnotationError], whatever the value and the annotations of
    the resolvers in it are. *)
Theorem X14_no_annotation_error_when_not_strict (PREFIX POST_PREFIX : string)
    (target : value) (self : Resolver) (w : world) :
  ensure_type self = false →
  ∀ msg,
    (resolve PREFIX POST_PREFIX target self w).2
    ≠ inl (MissingAnnotationError msg).
Proof.
  intros Hoff. apply (λ H : lenient (resolve PREFIX POST_PREFIX target),
                        proj2 (H self w Hoff)).
  clear self w Hoff.
  induction target as [a | k items cls Hitems Hcls | o Ho]
    using value_visit_ind.
  - apply lenient_ret.
  - cbn [resolve].
    apply lenient_bind; [by apply lenient_gather | intros items'].
    destruct cls as [o|]; [|apply lenient_ret].
    destruct (acceptable o); [|apply lenient_ret].
    apply lenient_bind;
      [by apply lenient_resolve_object | intros o'; apply lenient_ret].
  - cbn [resolve].
    destruct (acceptable o); [|apply lenient_ret].
    apply lenient_bind;
      [by apply lenient_resolve_object | intros o'; apply lenient_ret].
Qed.

(** X14 at [student] on a resolver that is not strict. *)
Lemma X14_witness :
  (resolve "resolve_" "post_" student (Resolver_init None false) (World 0 [])).2
  ≠ inl (MissingAnnotationError "resolve_books: return annotation is required").
Proof.
  exact (X14_no_annotation_error_when_not_strict "resolve_" "post_" student
           (Resolver_init None false) (World 0 []) eq_refl
           "resolve_books: return annotation is required").
Defined.
